(** * Noise tolerance experiment of Layer 2 in isolation

    A shallow embedding of [projects/l2_pooling/noise_tolerance.py]:
    the object generator [createRandomObjectDescriptions], the noise
    injector [noisy], the touch loops of [doExperiment] and the
    success-rate reduction of [varyNumColumns], with the properties of
    the written specification stated against them, followed by further
    properties of the same code. *)

From Stdlib Require Import ZArith QArith Qround Qminmax Lia.
From stdpp Require Import gmap strings list fin_sets pretty.

Local Open Scope Z_scope.

(** ** Data model *)

(** An SDR is a Python [set] of cell indices. *)
Abbreviation SDR := (gset Z).

(** A feature-location name, e.g. [(0, "C")]. *)
Abbreviation FeatureLocation := (nat * string)%type.

(** [L4_CELL_COUNT = 8*1024] *)
Definition L4_CELL_COUNT : Z := 8 * 1024.

(** The exceptions the modelled code can raise. *)
Inductive Exn : Type :=
| ValueError
| IndexError
| KeyError
| ZeroDivisionError.

(** How a call ends.  The global [random] generator is modelled by the
    finite sequence of draws it has produced so far; [Starved] is a call
    that has used all of them and still asks for one more.  A loop that
    rejects every draw is [Starved] on every sequence of draws. *)
Inductive Outcome (St A : Type) : Type :=
| Returned (a : A) (s : St)
| Raised (e : Exn)
| Starved.
Arguments Returned {St A} a s.
Arguments Raised {St A} e.
Arguments Starved {St A}.

(** Code that runs on a state [St], may raise and may wait for the
    generator. *)
Definition Run (St A : Type) : Type := St -> Outcome St A.

Definition ret {St A} (a : A) : Run St A := fun s => Returned a s.

Definition bind {St A B} (m : Run St A) (k : A -> Run St B) : Run St B :=
  fun s => match m s with
           | Returned a s' => k a s'
           | Raised e => Raised e
           | Starved => Starved
           end.

Definition raise {St A} (e : Exn) : Run St A := fun _ => Raised e.

Notation "'let*' x ':=' m 'in' k" := (bind m (fun x => k))
  (at level 10, x name, m at level 100, k at level 200, only parsing).
Notation "'let*' ' p ':=' m 'in' k" :=
  (bind m (fun x => match x with p => k end))
  (at level 10, p pattern, m at level 100, k at level 200, only parsing).
Notation "m ';;' k" := (bind m (fun _ => k))
  (at level 100, k at level 200, right associativity, only parsing).

(** [l[i]] on a Python list. *)
Definition index {St A} (l : list A) (i : nat) : Run St A :=
  match l !! i with
  | Some x => ret x
  | None => raise IndexError
  end.

(** [d[key]] on a Python dict. *)
Definition getitem {St A} (d : gmap string A) (key : string) : Run St A :=
  match d !! key with
  | Some x => ret x
  | None => raise KeyError
  end.

(** ** The integer half of the [random] module

    Every integer-valued library call takes the next raw draw [r] of the
    generator and reduces it to the width it was asked for. *)
Module Random.

Definition Tape := list Z.

Definition Gen (A : Type) := Run Tape A.

(** [random.randint(a, b)]: [ValueError] on an empty range, otherwise
    a value of [a..b]. *)
Definition randint (a b : Z) : Gen Z :=
  fun t =>
    if b - a + 1 <=? 0 then Raised ValueError
    else match t with
         | [] => Starved
         | r :: t' => Returned (a + r mod (b - a + 1)) t'
         end.

(** The selection loop of [random.sample]: [k] successive picks, each
    removed from the pool before the next one. *)
Fixpoint pick (pool : list Z) (k : nat) : Gen (list Z) :=
  match k with
  | O => ret []
  | S k' =>
      fun t =>
        match t with
        | [] => Starved
        | r :: t' =>
            let j := Z.to_nat (r mod Z.of_nat (length pool)) in
            match pool !! j with
            | Some x =>
                (let* xs := pick (delete j pool) k' in ret (x :: xs)) t'
            | None => Raised IndexError
            end
        end
  end.

(** [random.sample(population, k)]: [ValueError] unless
    [0 <= k <= len(population)], otherwise [k] distinct members. *)
Definition sample (population : list Z) (k : Z) : Gen (list Z) :=
  if (k <? 0) || (Z.of_nat (length population) <? k) then raise ValueError
  else pick population (Z.to_nat k).

End Random.

(** ** [noisy] *)

(** Python's [int()] on a float: truncation toward zero.  Noise levels
    are taken as exact rationals. *)
Definition py_int (q : Q) : Z := Z.quot (Qnum q) (Zpos (Qden q)).

(** [len(pattern)] *)
Definition len (pattern : SDR) : Z := Z.of_nat (size pattern).

(** The loop of lines 82-87: [k] rounds are left, each one draws
    [random.randint(0, totalNumCells - 1)] until it hits an index that
    is neither in [pattern] nor in [noised]. *)
Fixpoint noisy_fill (pattern : SDR) (totalNumCells : Z) (t : Random.Tape)
    (k : nat) (noised : SDR) {struct t} : Outcome Random.Tape SDR :=
  match k with
  | O => Returned noised t
  | S k' =>
      if totalNumCells <=? 0 then Raised ValueError
      else match t with
           | [] => Starved
           | r :: t' =>
               let v := r mod totalNumCells in
               if decide ((v ∉ pattern) ∧ (v ∉ noised))
               then noisy_fill pattern totalNumCells t' k' ({[v]} ∪ noised)
               else noisy_fill pattern totalNumCells t' (S k') noised
           end
  end.

(** Lines 78-89 for a given [n]. *)
Definition noisy_n (pattern : SDR) (n : Z) (totalNumCells : Z) : Random.Gen SDR :=
  let* removed := Random.sample (elements pattern) n in
  fun t => noisy_fill pattern totalNumCells t (Z.to_nat n)
             (pattern ∖ list_to_set removed).

Definition noisy (pattern : SDR) (noiseLevel : Q) (totalNumCells : Z) : Random.Gen SDR :=
  let n := py_int (noiseLevel * inject_Z (len pattern)) in
  noisy_n pattern n totalNumCells.

(** ** The state of an experiment *)

(** What the experiment does to its collaborators, in order: the noise
    levels it draws and the [compute] calls it makes. *)
Inductive Event : Type :=
| EvGauss (noiseLevel : Q)
| EvCompute (columnNumber : nat) (feedforwardInput : SDR)
    (lateralInputs : list SDR) (learn : bool).

(** What an experiment runs on: the draws left in the generator (raw
    integers for the integer-valued calls, standard normal deviates for
    [random.gauss]), the per-column codebooks [featureLocationSDRs], and
    the events so far. *)
Record Heap : Type := mkHeap {
  rnd : Random.Tape;
  normals : list Q;
  featureLocationSDRs : list (gmap FeatureLocation SDR);
  trace : list Event
}.

Definition M (A : Type) : Type := Run Heap A.

(** An integer-valued library call made by the experiment. *)
Definition draw {A} (g : Random.Gen A) : M A :=
  fun h => match g (rnd h) with
           | Returned a t =>
               Returned a (mkHeap t (normals h) (featureLocationSDRs h) (trace h))
           | Raised e => Raised e
           | Starved => Starved
           end.

(** [random.gauss(mu, sigma)]: [mu + z * sigma] for the next standard
    normal deviate [z] of the generator. *)
Definition gauss (mu sigma : Q) : M Q :=
  fun h => match normals h with
           | [] => Starved
           | z :: zs =>
               Returned (mu + z * sigma)%Q
                 (mkHeap (rnd h) zs (featureLocationSDRs h) (trace h))
           end.

Definition emit (e : Event) : M unit :=
  fun h => Returned tt
             (mkHeap (rnd h) (normals h) (featureLocationSDRs h) (trace h ++ [e])).

(** [layer4sdr = lambda : set(random.sample(xrange(L4_CELL_COUNT), 40))] *)
Definition layer4sdr : Random.Gen SDR :=
  fun t =>
    (let* cells := Random.sample (seqZ 0 L4_CELL_COUNT) 40 in
     ret (list_to_set cells)) t.

(** [featureLocationSDRs[columnNumber][featureLocationName]] on the list
    of [defaultdict(layer4sdr)]: a missing name is given a fresh SDR,
    which is stored. *)
Definition featureLocationSDR (columnNumber : nat)
    (featureLocationName : FeatureLocation) : M SDR :=
  fun h =>
    match featureLocationSDRs h !! columnNumber with
    | None => Raised IndexError
    | Some d =>
        match d !! featureLocationName with
        | Some sdr => Returned sdr h
        | None =>
            match layer4sdr (rnd h) with
            | Returned sdr t =>
                Returned sdr
                  (mkHeap t (normals h)
                     (<[columnNumber := <[featureLocationName := sdr]> d]>
                        (featureLocationSDRs h))
                     (trace h))
            | Raised e => Raised e
            | Starved => Starved
            end
        end
    end.

(** ** Loops *)

(** [for i, x in enumerate(l)], the body replacing [x]. *)
Fixpoint forEnum {St A B} (body : nat -> A -> Run St B) (i : nat) (l : list A)
    : Run St (list B) :=
  match l with
  | [] => ret []
  | x :: l' =>
      let* y := body i x in
      let* ys := forEnum body (S i) l' in
      ret (y :: ys)
  end.

(** [for _ in xrange(n)] *)
Fixpoint times {St A} (n : nat) (body : A -> Run St A) (a : A) : Run St A :=
  match n with
  | O => ret a
  | S n' => let* a' := body a in times n' body a'
  end.

(** [for x in l], threading the variables [a] through. *)
Fixpoint forEach {St A X} (body : A -> X -> Run St A) (a : A) (l : list X)
    : Run St A :=
  match l with
  | [] => ret a
  | x :: l' => let* a' := body a x in forEach body a' l'
  end.

(** [[lateralInput for i, lateralInput in enumerate(allLateralInputs)
      if i != columnNumber]] *)
Definition lateralInputsOf (columnNumber : nat) (allLateralInputs : list SDR)
    : list SDR :=
  snd <$> filter (λ p : nat * SDR, p.1 ≠ columnNumber)
            (imap pair allLateralInputs).

(** ** The pooling mechanism and the sensor placement *)

(** [htmresearch.algorithms.column_pooler.ColumnPooler], as far as the
    experiment uses it.  A column is the value of its state;
    [getActiveCells] gives the active cells as a value. *)
Class ColumnPooler (L2 : Type) : Type := {
  (** The constructor, given the overrides, the number of columns
      and the seed. *)
  ColumnPooler_new : list (string * Z) -> nat -> Z -> L2;
  compute : L2 -> SDR -> list SDR -> bool -> L2;
  getActiveCells : L2 -> SDR;
  reset : L2 -> L2
}.

(** [greedySensorPositions(numSensors, numLocations)]: the [k]th tuple
    the generator yields. *)
Definition SensorPlacement : Type := nat -> nat -> nat -> list nat.

Section Experiment.

Context {L2 : Type} `{ColumnPooler L2}.
Variable greedySensorPositions : SensorPlacement.

(** *** Learning, lines 137-152 *)

(** One pass of lines 142-148. *)
Definition learnStep (featureLocationName : FeatureLocation)
    (l2Columns : list L2) : M (list L2) :=
  let allLateralInputs := getActiveCells <$> l2Columns in
  forEnum (fun columnNumber l2 =>
    let* feedforwardInput := featureLocationSDR columnNumber featureLocationName in
    let lateralInputs := lateralInputsOf columnNumber allLateralInputs in
    emit (EvCompute columnNumber feedforwardInput lateralInputs true) ;;
    ret (compute l2 feedforwardInput lateralInputs true))
    0%nat l2Columns.

(** Lines 139-148: the four touches of one feature-location. *)
Definition learnFeatureLocation (l2Columns : list L2)
    (featureLocationName : FeatureLocation) : M (list L2) :=
  times 4 (learnStep featureLocationName) l2Columns.

(** Lines 138-152 for one object. *)
Definition learnObject
    (st : list L2 * gmap string (list SDR))
    (object : string * list FeatureLocation)
    : M (list L2 * gmap string (list SDR)) :=
  let '(l2Columns, objectL2Representations) := st in
  let '(objectName, featureLocations) := object in
  let* l2Columns := forEach learnFeatureLocation l2Columns featureLocations in
  let objectL2Representations :=
    <[objectName := getActiveCells <$> l2Columns]> objectL2Representations in
  let l2Columns := reset <$> l2Columns in
  ret (l2Columns, objectL2Representations).

(** *** Inference, lines 157-198 *)

(** One pass of lines 176-190. *)
Definition inferStep (featureLocations : list FeatureLocation)
    (sensorPositions : list nat) (noiseMu noiseSigma : Q)
    (l2Columns : list L2) : M (list L2) :=
  let allLateralInputs := getActiveCells <$> l2Columns in
  forEnum (fun columnNumber l2 =>
    let* noiseLevel := gauss noiseMu noiseSigma in
    let noiseLevel := Qmax 0 (Qmin 1 noiseLevel) in
    emit (EvGauss noiseLevel) ;;
    let* position := index sensorPositions columnNumber in
    let* featureLocationName := index featureLocations position in
    let* feedforwardInput := featureLocationSDR columnNumber featureLocationName in
    let* feedforwardInput := draw (noisy feedforwardInput noiseLevel L4_CELL_COUNT) in
    let lateralInputs := lateralInputsOf columnNumber allLateralInputs in
    emit (EvCompute columnNumber feedforwardInput lateralInputs false) ;;
    ret (compute l2 feedforwardInput lateralInputs false))
    0%nat l2Columns.

(** Lines 193-198. *)
Definition recordResults (objectL2Representations : gmap string (list SDR))
    (objectName : string) (l2Columns : list L2)
    (results : list (nat * nat)) : M (list (nat * nat)) :=
  let* new := forEnum (fun columnNumber l2 =>
    let activeCells := getActiveCells l2 in
    let* correct := getitem objectL2Representations objectName in
    let* correctCells := index correct columnNumber in
    ret (size (activeCells ∩ correctCells), size (activeCells ∖ correctCells)))
    0%nat l2Columns in
  ret (results ++ new).

(** Lines 171-198: one touch. *)
Definition inferTouch (featureLocations : list FeatureLocation)
    (sensorPositionsIterator : nat -> list nat) (noiseMu noiseSigma : Q)
    (numInitialTouches : Z)
    (objectL2Representations : gmap string (list SDR)) (objectName : string)
    (st : list L2 * list (nat * nat)) (touch : Z)
    : M (list L2 * list (nat * nat)) :=
  let '(l2Columns, results) := st in
  let sensorPositions := sensorPositionsIterator (Z.to_nat touch) in
  let* l2Columns :=
    times 3 (inferStep featureLocations sensorPositions noiseMu noiseSigma)
      l2Columns in
  if numInitialTouches <=? touch
  then let* results :=
         recordResults objectL2Representations objectName l2Columns results in
       ret (l2Columns, results)
  else ret (l2Columns, results).

(** Lines 158-198 for one object. *)
Definition inferObject (numColumns : nat)
    (objectL2Representations : gmap string (list SDR))
    (noiseMu noiseSigma : Q) (numInitialTraversals : Z)
    (st : list L2 * list (nat * nat))
    (object : string * list FeatureLocation)
    : M (list L2 * list (nat * nat)) :=
  let '(l2Columns, results) := st in
  let '(objectName, featureLocations) := object in
  let l2Columns := reset <$> l2Columns in
  let sensorPositionsIterator :=
    greedySensorPositions numColumns (length featureLocations) in
  if decide (numColumns = 0%nat) then raise ZeroDivisionError
  else
    let numTouchesPerTraversal :=
      (inject_Z (Z.of_nat (length featureLocations))
         / inject_Z (Z.of_nat numColumns))%Q in
    let numInitialTouches :=
      Qceiling (inject_Z numInitialTraversals * numTouchesPerTraversal) in
    let numTestTouches := Qceiling (1 * numTouchesPerTraversal) in
    forEach
      (inferTouch featureLocations sensorPositionsIterator noiseMu noiseSigma
         numInitialTouches objectL2Representations objectName)
      (l2Columns, results)
      (seqZ 0 (numInitialTouches + numTestTouches)).

Definition doExperiment (numColumns : nat) (l2Overrides : list (string * Z))
    (objectDescriptions : list (string * list FeatureLocation))
    (noiseMu noiseSigma : Q) (numInitialTraversals : Z)
    : M (list (nat * nat)) :=
  (fun h => Returned tt
     (mkHeap (rnd h) (normals h) (replicate numColumns ∅) (trace h))) ;;
  let* seed := draw (Random.randint 0 1024) in
  let l2Columns :=
    replicate numColumns (ColumnPooler_new l2Overrides numColumns seed) in
  let* '(l2Columns, objectL2Representations) :=
    forEach learnObject (l2Columns, ∅) objectDescriptions in
  let* '(_, results) :=
    forEach
      (inferObject numColumns objectL2Representations noiseMu noiseSigma
         numInitialTraversals)
      (l2Columns, []) objectDescriptions in
  ret results.

End Experiment.

(** ** The success rate, lines 243-247 of [varyNumColumns] *)

Definition numPassed (numCorrectActiveThreshold numIncorrectActiveThreshold : nat)
    (trials : list (nat * nat)) : nat :=
  length (filter (λ t : nat * nat,
                    (numCorrectActiveThreshold ≤ t.1)%nat
                    ∧ (t.2 ≤ numIncorrectActiveThreshold)%nat) trials).

(** [numPassed / float(len(trials))], [ZeroDivisionError] on no trial. *)
Definition successRate (numCorrectActiveThreshold numIncorrectActiveThreshold : nat)
    (trials : list (nat * nat)) : Exn + Q :=
  match trials with
  | [] => inl ZeroDivisionError
  | _ :: _ =>
      inr (inject_Z (Z.of_nat (numPassed numCorrectActiveThreshold
                                 numIncorrectActiveThreshold trials))
           / inject_Z (Z.of_nat (length trials)))%Q
  end.

(** ** A pooling mechanism to run the experiment on

    The column's active cells are its last feedforward input together
    with what its neighbours showed; [reset] clears them. *)
Module Echo.

Definition echo (l2 : SDR) (feedforwardInput : SDR)
    (lateralInputs : list SDR) (learn : bool) : SDR :=
  feedforwardInput ∪ ⋃ lateralInputs.

#[global] Instance pooler : ColumnPooler SDR := {|
  ColumnPooler_new := fun _ _ _ => ∅;
  compute := echo;
  getActiveCells := fun l2 => l2;
  reset := fun _ => ∅
|}.

(** Every sensor on location 0. *)
Definition placement : SensorPlacement :=
  fun numSensors _ _ => replicate numSensors 0%nat.

Definition heap (rnd : Random.Tape) (normals : list Q) : Heap :=
  mkHeap rnd normals [] [].

End Echo.

(** ** Vocabulary of the statements *)

(** The cells [0 .. totalNumCells - 1]. *)
Definition cells (totalNumCells : Z) : SDR := list_to_set (seqZ 0 totalNumCells).

(** The indices a round of [noisy] accepts. *)
Definition fresh (pattern noised : SDR) (totalNumCells : Z) : SDR :=
  cells totalNumCells ∖ (pattern ∪ noised).

(** The [compute] calls of a trace: column, lateral inputs, learn flag. *)
Definition computes (evs : list Event) : list (nat * list SDR * bool) :=
  omap (λ e, match e with
             | EvCompute c _ lateralInputs learn => Some (c, lateralInputs, learn)
             | EvGauss _ => None
             end) evs.

(** The feedforward inputs of the [compute] calls of a trace. *)
Definition feedforwards (evs : list Event) : list SDR :=
  omap (λ e, match e with
             | EvCompute _ feedforwardInput _ _ => Some feedforwardInput
             | EvGauss _ => None
             end) evs.

(** The noise levels drawn in a trace. *)
Definition noiseLevels (evs : list Event) : list Q :=
  omap (λ e, match e with
             | EvGauss noiseLevel => Some noiseLevel
             | EvCompute _ _ _ _ => None
             end) evs.

(** A pattern of four cells, for worked instances. *)
Definition fourCells : SDR := {[1; 2; 3; 4]}.

(** Worked instances on the echoing columns. *)
Module Demo.

Definition featureA : FeatureLocation := (0%nat, "A"%string).

(** A codebook that already holds the SDR of [featureA]. *)
Definition codebook : gmap FeatureLocation SDR := {[ featureA := fourCells ]}.

Definition draws : Random.Tape := seqZ 0 40.

(** One column, respectively two, each with that codebook. *)
Definition oneColumn : Heap :=
  mkHeap draws (replicate 12 0%Q) [codebook] [].
Definition twoColumns : Heap :=
  mkHeap draws (replicate 12 0%Q) [codebook; codebook] [].

Definition cols1 : list SDR := [∅].
Definition cols2 : list SDR := [{[1]}; {[2]}].

(** What one column has learnt of "Object 1". *)
Definition learned : gmap string (list SDR) :=
  {[ "Object 1"%string := [fourCells] ]}.

(** [doExperiment(1, {}, {"Object 1": [(0, "A")]}, 0.5, 0.0, 0)] on
    the draws 0, 1, 2, ... *)
Definition experiment : Outcome Heap (list (nat * nat)) :=
  doExperiment (L2 := SDR) Echo.placement 1 []
    [("Object 1"%string, [featureA])] (1 # 2) 0 0
    (Echo.heap (seqZ 0 400) (replicate 12 0%Q)).

End Demo.

(** A pattern of two cells in a universe of three. *)
Definition twoCells : SDR := {[0; 1]}.

(** ** [createRandomObjectDescriptions] *)

(** [random.choice(seq)]: the member at a drawn index, [IndexError] on
    an empty sequence. *)
Definition Random_choice {A} (seq : list A) : Random.Gen A :=
  fun t =>
    match t with
    | [] => Starved
    | r :: t' =>
        match seq !! Z.to_nat (r mod Z.of_nat (length seq)) with
        | Some x => Returned x t'
        | None => Raised IndexError
        end
    end.

(** [dict(items)]: a later item replaces an earlier one of the same key. *)
Definition dict {A} (items : list (string * A)) : gmap string A :=
  foldl (λ d kv, <[kv.1 := kv.2]> d) ∅ items.

(** The pairs [createRandomObjectDescriptions] hands to [dict], for
    [i] in [xrange(1, numObjects + 1)]. *)
Definition objectItems (numObjects numLocationsPerObject : Z)
    (featurePool : list string)
    : Random.Gen (list (string * list FeatureLocation)) :=
  forEnum (fun _ i =>
    let* features :=
      forEnum (fun _ _ => Random_choice featurePool) 0%nat
        (seqZ 0 numLocationsPerObject) in
    ret ("Object " +:+ pretty i,
         zip (seq 0 (Z.to_nat numLocationsPerObject)) features))
    0%nat (seqZ 1 numObjects).

Definition createRandomObjectDescriptions (numObjects numLocationsPerObject : Z)
    (featurePool : list string)
    : Random.Gen (gmap string (list FeatureLocation)) :=
  let* items := objectItems numObjects numLocationsPerObject featurePool in
  ret (dict items).

(** [featurePool=("A", "B", "C")] *)
Definition defaultFeaturePool : list string := ["A"; "B"; "C"]%string.

(** ** Further vocabulary *)

(** A call that uses exactly [c] draws: it returns with the draws after
    them, never raises, and starves on fewer. *)
Definition Uses {A} (c : nat) (m : Random.Gen A) : Prop :=
  ∀ t, match m t with
       | Returned _ t' => (c ≤ length t)%nat ∧ t' = drop c t
       | Raised _ => False
       | Starved => (length t < c)%nat
       end.

(** The SDR a column's codebook holds for a feature-location. *)
Definition code (h : Heap) (columnNumber : nat) (name : FeatureLocation)
    : option SDR :=
  featureLocationSDRs h !! columnNumber ≫= (.!! name).

(** From [h] to [h'] no column is added or dropped and no stored SDR is
    changed. *)
Definition keeps_codes (h h' : Heap) : Prop :=
  length (featureLocationSDRs h') = length (featureLocationSDRs h)
  ∧ ∀ c name sdr, code h c name = Some sdr → code h' c name = Some sdr.

(** Every run of [m] that returns takes the state upwards in [le]. *)
Definition Grows {St A} (le : St → St → Prop) (m : Run St A) : Prop :=
  ∀ s a s', m s = Returned a s' → le s s'.

(** What the learning phase leaves behind: [n] columns, and for every
    object learnt so far a representation of [n] sets of cells. *)
Definition learnt {L2 : Type} (n : nat) (names : string → Prop)
    (st : list L2 * gmap string (list SDR)) : Prop :=
  length st.1 = n
  ∧ ∀ name, names name → ∃ l, st.2 !! name = Some l ∧ length l = n.

(** The number of test touches on an object of [numLocations] locations
    with [numColumns] sensors: the locations divided by the sensors,
    rounded up. *)
Definition testTouches (numColumns numLocations : nat) : nat :=
  Z.to_nat ((Z.of_nat numLocations + Z.of_nat numColumns - 1)
            / Z.of_nat numColumns).



(** A trial that counts as a success. *)
Definition passes (numCorrectActiveThreshold numIncorrectActiveThreshold : nat)
    (t : nat * nat) : Prop :=
  (numCorrectActiveThreshold ≤ t.1)%nat ∧ (t.2 ≤ numIncorrectActiveThreshold)%nat.

(** What the item of object [i] looks like. *)
Definition wellShaped (n : Z) (pool : list string) (i : Z)
    (item : string * list FeatureLocation) : Prop :=
  item.1 = "Object " +:+ pretty i
  ∧ item.2.*1 = seq 0 (Z.to_nat n)
  ∧ Forall (λ f, f ∈ pool) item.2.*2.

(** Further worked instances. *)
Module Cases.

(** Draws on which [noisy fourCells (1 # 2) 8] swaps two cells, rejecting
    one draw on the way, and leaves the last draw unused. *)
Definition halfNoise : Random.Tape := [0; 1; 2; 5; 6; 9].

(** One column that has not seen any feature-location yet. *)
Definition unseen : Heap := mkHeap Demo.draws [] [∅] [].

Definition object1 : string * list FeatureLocation :=
  ("Object 1"%string, [Demo.featureA]).

(** Two trials, one with four correct cells and one with four wrong. *)
Definition hit : nat * nat := (4%nat, 0%nat).
Definition miss : nat * nat := (0%nat, 4%nat).

End Cases.

(** * Properties *)

(** ** The monad *)

Lemma bind_Returned {St A B} (m : Run St A) (k : A -> Run St B) s b s' :
  bind m k s = Returned b s' ↔
  ∃ a s1, m s = Returned a s1 ∧ k a s1 = Returned b s'.
Proof.
  unfold bind. split.
  - destruct (m s) as [a s1| |]; try discriminate.
    intros Hk. exists a, s1. split; [reflexivity | exact Hk].
  - intros (a & s1 & -> & Hk). exact Hk.
Qed.

Lemma bind_Raised {St A B} (m : Run St A) (k : A -> Run St B) s e :
  bind m k s = Raised e ↔
  m s = Raised e ∨ ∃ a s1, m s = Returned a s1 ∧ k a s1 = Raised e.
Proof.
  unfold bind. split.
  - destruct (m s) as [a s1| |]; try discriminate.
    + intros Hk. right. exists a, s1. split; [reflexivity | exact Hk].
    + intros [= ->]. by left.
  - intros [-> | (a & s1 & -> & Hk)]; done.
Qed.

(** ** Truncation of a noise level *)



(** ** [random.sample] *)

Section Sample.

Local Open Scope nat_scope.

Lemma pick_index (pool : list Z) (r : Z) :
  pool ≠ [] → Z.to_nat (r mod Z.of_nat (length pool)) < length pool.
Proof.
  intros Hne. assert (0 < length pool) by (destruct pool; simpl; [done | lia]).
  pose proof (Z.mod_pos_bound r (Z.of_nat (length pool))). lia.
Qed.

(** A sample that returns is made of [k] distinct members of the pool. *)
Lemma pick_Returned (k : nat) :
  ∀ (pool : list Z) t xs t',
    NoDup pool → Random.pick pool k t = Returned xs t' →
    NoDup xs ∧ xs ⊆ pool ∧ length xs = k.
Proof.
  induction k as [|k IH]; intros pool t xs t' Hnd; simpl.
  - intros [= <- <-]. split; [constructor | split; [set_solver | done]].
  - destruct t as [|r t]; [done |].
    destruct (pool !! _) as [x|] eqn:Hx; [| done].
    intros (ys & t1 & Hys & [= <- <-])%bind_Returned.
    pose proof (delete_Permutation _ _ _ Hx) as Hperm.
    assert (Hnd' : NoDup (x :: delete (Z.to_nat (r mod Z.of_nat (length pool))) pool))
      by (by rewrite <- Hperm).
    apply NoDup_cons in Hnd' as [Hnotin Hnd'].
    destruct (IH _ _ _ _ Hnd' Hys) as (Hys1 & Hys2 & Hys3).
    split; [| split].
    + apply NoDup_cons. split; [| done]. intros Hin. apply Hnotin. by apply Hys2.
    + intros y [-> | Hy]%elem_of_cons.
      * by eapply list_elem_of_lookup_2.
      * eapply list_elem_of_delete_inv. by apply Hys2.
    + simpl. by rewrite Hys3.
Qed.

Lemma pick_not_Raised (k : nat) :
  ∀ (pool : list Z) t e, k ≤ length pool → Random.pick pool k t ≠ Raised e.
Proof.
  induction k as [|k IH]; intros pool t e Hk; simpl; [done |].
  destruct t as [|r t]; [done |].
  assert (Hne : pool ≠ []) by (destruct pool; simpl in *; [lia | done]).
  pose proof (pick_index pool r Hne) as Hj.
  destruct (lookup_lt_is_Some_2 _ _ Hj) as [x Hx]. rewrite Hx.
  intros [Hr | (ys & t1 & _ & Hr)]%bind_Raised; [| done].
  revert Hr. apply IH. rewrite length_delete; [lia | by eexists].
Qed.

(** More draws after those a sample used are left over. *)
Lemma pick_more (k : nat) :
  ∀ (pool : list Z) t xs t' more,
    Random.pick pool k t = Returned xs t' →
    Random.pick pool k (t ++ more) = Returned xs (t' ++ more).
Proof.
  induction k as [|k IH]; intros pool t xs t' more; simpl.
  - by intros [= <- <-].
  - destruct t as [|r t]; [done |]. simpl.
    destruct (pool !! _) as [x|]; [| done].
    intros (ys & t1 & Hys & [= <- <-])%bind_Returned.
    apply bind_Returned. exists ys, (t1 ++ more). split; [| done].
    by apply IH.
Qed.

(** Whatever was drawn so far, a sample within the pool can return. *)
Lemma pick_finish (k : nat) :
  ∀ (pool : list Z) t, k ≤ length pool →
    ∃ more xs t', Random.pick pool k (t ++ more) = Returned xs t'.
Proof.
  induction k as [|k IH]; intros pool t Hk.
  - exists [], [], t. by rewrite app_nil_r.
  - assert (Hne : pool ≠ []) by (destruct pool; simpl in *; [lia | done]).
    assert (Hstep : ∀ r t1, ∃ more xs t',
               Random.pick pool (S k) (r :: t1 ++ more) = Returned xs t').
    { intros r t1. pose proof (pick_index pool r Hne) as Hj.
      destruct (lookup_lt_is_Some_2 _ _ Hj) as [x Hx].
      destruct (IH (delete (Z.to_nat (r mod Z.of_nat (length pool))) pool) t1)
        as (more & ys & t' & Hys).
      { rewrite length_delete; [lia | by eexists]. }
      exists more, (x :: ys), t'. simpl. rewrite Hx.
      apply bind_Returned. by exists ys, t'. }
    destruct t as [|r t].
    + destruct (Hstep 0%Z []) as (more & xs & t' & Hp).
      by exists (0%Z :: more), xs, t'.
    + apply Hstep.
Qed.

Lemma sample_Returned (population : list Z) (k : Z) t xs t' :
  NoDup population → Random.sample population k t = Returned xs t' →
  (0 ≤ k ≤ Z.of_nat (length population))%Z
  ∧ NoDup xs ∧ xs ⊆ population ∧ length xs = Z.to_nat k.
Proof.
  unfold Random.sample. intros Hnd.
  destruct (_ || _) eqn:Hk; [done |].
  apply orb_false_iff in Hk as [?%Z.ltb_ge ?%Z.ltb_ge].
  intros Hp. split; [lia |]. by eapply pick_Returned.
Qed.

Lemma sample_in_range (population : list Z) (k : Z) :
  (0 ≤ k ≤ Z.of_nat (length population))%Z →
  Random.sample population k = Random.pick population (Z.to_nat k).
Proof.
  unfold Random.sample. intros Hk.
  destruct (_ || _) eqn:Hb; [| done].
  apply orb_true_iff in Hb as [?%Z.ltb_lt | ?%Z.ltb_lt]; lia.
Qed.

Lemma sample_out_of_range (population : list Z) (k : Z) t :
  (k < 0 ∨ Z.of_nat (length population) < k)%Z →
  Random.sample population k t = Raised ValueError.
Proof.
  unfold Random.sample. intros Hk.
  destruct (_ || _) eqn:Hb; [done |].
  apply orb_false_iff in Hb as [?%Z.ltb_ge ?%Z.ltb_ge]. lia.
Qed.

End Sample.

(** ** The rejection loop of [noisy] *)

Section Fill.

Local Open Scope nat_scope.
Implicit Types (pattern noised out : SDR) (t : Random.Tape).

Lemma elem_of_cells (v U : Z) : v ∈ cells U ↔ (0 ≤ v < U)%Z.
Proof. unfold cells. rewrite elem_of_list_to_set, elem_of_seqZ. lia. Qed.

Lemma size_cells (U : Z) : size (cells U) = Z.to_nat U.
Proof.
  unfold cells. rewrite size_list_to_set by apply NoDup_seqZ.
  apply length_seqZ.
Qed.

Lemma size_within_cells (X : SDR) (U : Z) :
  (∀ v, v ∈ X → (0 ≤ v < U)%Z) → size X ≤ Z.to_nat U.
Proof.
  intros HX. rewrite <- size_cells. apply subseteq_size.
  intros v Hv. apply elem_of_cells. by apply HX.
Qed.

(** Each round is a call of [random.randint(0, totalNumCells - 1)]. *)
Lemma noisy_fill_round pattern U t k noised :
  noisy_fill pattern U t (S k) noised =
  match Random.randint 0 (U - 1) t with
  | Returned v t' =>
      if decide ((v ∉ pattern) ∧ (v ∉ noised))
      then noisy_fill pattern U t' k ({[v]} ∪ noised)
      else noisy_fill pattern U t' (S k) noised
  | Raised e => Raised e
  | Starved => Starved
  end.
Proof.
  unfold Random.randint. replace (U - 1 - 0 + 1)%Z with U by lia.
  destruct t as [|r t]; simpl; by destruct (U <=? 0)%Z.
Qed.

(** What the loop has added when it returns. *)
Lemma noisy_fill_Returned pattern U t :
  ∀ k noised out t',
    noisy_fill pattern U t k noised = Returned out t' →
    out ∩ pattern = noised ∩ pattern
    ∧ size (out ∖ pattern) = size (noised ∖ pattern) + k
    ∧ size out = size noised + k.
Proof.
  induction t as [|r t IH]; intros [|k] noised out t'; simpl;
    try (intros [= <- <-]; split_and!; [done | lia | lia]).
  - by destruct (U <=? 0)%Z.
  - destruct (U <=? 0)%Z; [done |].
    case_decide as Hv.
    + destruct Hv as [HvP Hvn]. intros (H1 & H2 & H3)%IH.
      split_and!.
      * rewrite H1. set_solver.
      * rewrite H2.
        replace (({[(r `mod` U)%Z]} ∪ noised) ∖ pattern)
          with ({[(r `mod` U)%Z]} ∪ noised ∖ pattern) by set_solver.
        rewrite size_union by set_solver. rewrite size_singleton. lia.
      * rewrite H3, size_union by set_solver. rewrite size_singleton. lia.
    + intros (H1 & H2 & H3)%IH. done.
Qed.

Lemma noisy_fill_not_Raised pattern U t :
  ∀ k noised e,
    k = 0 ∨ (0 < U)%Z → noisy_fill pattern U t k noised ≠ Raised e.
Proof.
  induction t as [|r t IH]; intros [|k] noised e HU; simpl; try done.
  - destruct HU as [? | HU]; [done |].
    by destruct (U <=? 0)%Z eqn:E; [apply Z.leb_le in E; lia |].
  - destruct HU as [? | HU]; [done |].
    destruct (U <=? 0)%Z eqn:E; [apply Z.leb_le in E; lia |].
    case_decide; apply IH; by right.
Qed.

Lemma size_fresh_add pattern noised U (v : Z) :
  v ∈ fresh pattern noised U →
  size (fresh pattern ({[v]} ∪ noised) U) = size (fresh pattern noised U) - 1.
Proof.
  intros Hv.
  replace (fresh pattern ({[v]} ∪ noised) U)
    with (fresh pattern noised U ∖ {[v]}) by (unfold fresh; set_solver).
  rewrite size_difference by set_solver. by rewrite size_singleton.
Qed.

Lemma fresh_draw pattern noised U (r : Z) :
  (0 < U)%Z → (r `mod` U)%Z ∉ pattern → (r `mod` U)%Z ∉ noised →
  (r `mod` U)%Z ∈ fresh pattern noised U.
Proof.
  intros HU HP Hn. unfold fresh.
  apply elem_of_difference. split; [| set_solver].
  apply elem_of_cells. apply Z.mod_pos_bound. lia.
Qed.

(** With [k] fresh indices left, [k] well-chosen draws end the loop. *)
Lemma noisy_fill_finish_now pattern U (k : nat) :
  ∀ noised, k ≤ size (fresh pattern noised U) →
    ∃ more out t', noisy_fill pattern U more k noised = Returned out t'.
Proof.
  induction k as [|k IH]; intros noised Hk.
  - by exists [], noised, [].
  - destruct (size_pos_elem_of (fresh pattern noised U)) as [v Hv]; [lia |].
    pose proof Hv as Hv'. unfold fresh in Hv'.
    apply elem_of_difference in Hv' as [[Hv0 Hv1]%elem_of_cells Hv2].
    destruct (IH ({[v]} ∪ noised)) as (more & out & t' & Hfill).
    { rewrite size_fresh_add by done. lia. }
    exists (v :: more), out, t'. simpl.
    destruct (U <=? 0)%Z eqn:E; [apply Z.leb_le in E; lia |].
    rewrite Z.mod_small by lia.
    rewrite decide_True by set_solver. done.
Qed.

Lemma noisy_fill_finish pattern U t :
  ∀ k noised, k ≤ size (fresh pattern noised U) →
    ∃ more out t', noisy_fill pattern U (t ++ more) k noised = Returned out t'.
Proof.
  induction t as [|r t IH]; intros k noised Hk.
  - by apply noisy_fill_finish_now.
  - destruct k as [|k]; [by exists [], noised, (r :: t ++ []) |].
    assert (HU : (0 < U)%Z).
    { destruct (size_pos_elem_of (fresh pattern noised U)) as [v Hv]; [lia |].
      unfold fresh in Hv.
      apply elem_of_difference in Hv as [?%elem_of_cells _]. lia. }
    simpl. destruct (U <=? 0)%Z eqn:E; [apply Z.leb_le in E; lia |].
    case_decide as Hv.
    + apply IH. destruct Hv as [HvP Hvn].
      rewrite size_fresh_add by (by apply fresh_draw). lia.
    + apply IH. lia.
Qed.

(** With fewer fresh indices than rounds, no sequence of draws ends
    the loop. *)
Lemma noisy_fill_Starved pattern U t :
  ∀ k noised,
    (0 < U)%Z → (∀ v, v ∈ pattern ∪ noised → (0 ≤ v < U)%Z) →
    Z.to_nat U < size (pattern ∪ noised) + k →
    noisy_fill pattern U t k noised = Starved.
Proof.
  induction t as [|r t IH]; intros k noised HU Hin Hk.
  - destruct k as [|k]; simpl.
    + pose proof (size_within_cells _ _ Hin). lia.
    + by destruct (U <=? 0)%Z eqn:E; [apply Z.leb_le in E; lia |].
  - destruct k as [|k]; simpl.
    + pose proof (size_within_cells _ _ Hin). lia.
    + destruct (U <=? 0)%Z eqn:E; [apply Z.leb_le in E; lia |].
      case_decide as Hv.
      * apply IH; [done | |].
        -- intros v [Hv1 | [->%elem_of_singleton | Hv2]%elem_of_union]%elem_of_union.
           ++ apply Hin. set_solver.
           ++ apply Z.mod_pos_bound. lia.
           ++ apply Hin. set_solver.
        -- replace (pattern ∪ ({[(r `mod` U)%Z]} ∪ noised))
             with ({[(r `mod` U)%Z]} ∪ (pattern ∪ noised)) by set_solver.
           rewrite size_union by set_solver. rewrite size_singleton. lia.
      * by apply IH.
Qed.

End Fill.

(** ** [noisy] for a given number of swapped cells *)

Section NoisyN.

Local Open Scope nat_scope.
Implicit Types (pattern out : SDR) (t : Random.Tape).

Lemma noisy_n_Returned pattern (n U : Z) t out t' :
  noisy_n pattern n U t = Returned out t' →
  (0 ≤ n ≤ len pattern)%Z
  ∧ size (out ∩ pattern) = size pattern - Z.to_nat n
  ∧ size (out ∖ pattern) = Z.to_nat n
  ∧ size out = size pattern.
Proof.
  unfold noisy_n.
  intros (removed & t1 & Hs & Hfill)%bind_Returned.
  apply sample_Returned in Hs as (Hn & Hnd & Hsub & Hlen);
    [| apply NoDup_elements].
  apply noisy_fill_Returned in Hfill as (H1 & H2 & H3).
  assert (HR : (list_to_set removed : SDR) ⊆ pattern).
  { intros v Hv%elem_of_list_to_set. apply elem_of_elements. by apply Hsub. }
  assert (Hsize : size (pattern ∖ list_to_set removed) = size pattern - Z.to_nat n).
  { rewrite size_difference by done. by rewrite size_list_to_set, Hlen. }
  change (length (elements pattern)) with (size pattern) in Hn, Hlen.
  assert (Hle : Z.to_nat n ≤ size pattern) by lia.
  split; [exact Hn |]. split; [| split].
  - rewrite H1.
    replace ((pattern ∖ list_to_set removed) ∩ pattern)
      with (pattern ∖ list_to_set removed) by set_solver.
    done.
  - rewrite H2.
    replace ((pattern ∖ list_to_set removed) ∖ pattern) with (∅ : SDR)
      by set_solver.
    by rewrite size_empty.
  - rewrite H3, Hsize. lia.
Qed.

Lemma noisy_n_not_Raised pattern (n U : Z) t e :
  (0 ≤ n ≤ len pattern)%Z → n = 0%Z ∨ (0 < U)%Z →
  noisy_n pattern n U t ≠ Raised e.
Proof.
  intros Hn HU. unfold noisy_n. rewrite sample_in_range by done.
  intros [Hp | (removed & t1 & _ & Hfill)]%bind_Raised.
  - revert Hp. apply pick_not_Raised. unfold len in Hn.
    change (length (elements pattern)) with (size pattern). lia.
  - revert Hfill. apply noisy_fill_not_Raised. lia.
Qed.

Lemma size_fresh_start pattern (U : Z) (removed : list Z) :
  Z.to_nat U - size pattern
  ≤ size (fresh pattern (pattern ∖ list_to_set removed) U).
Proof.
  replace (fresh pattern (pattern ∖ list_to_set removed) U)
    with (cells U ∖ pattern) by (unfold fresh; set_solver).
  rewrite size_difference_alt, size_cells.
  assert (size (cells U ∩ pattern) ≤ size pattern)
    by (apply subseteq_size; set_solver).
  lia.
Qed.

Lemma noisy_n_finish pattern (n U : Z) t :
  (0 ≤ n ≤ len pattern)%Z → (n ≤ U - len pattern)%Z →
  ∃ more out t', noisy_n pattern n U (t ++ more) = Returned out t'.
Proof.
  intros Hn HU. unfold noisy_n. rewrite sample_in_range by done.
  destruct (pick_finish (Z.to_nat n) (elements pattern) t)
    as (more1 & removed & t1 & Hp).
  { unfold len in Hn.
    change (length (elements pattern)) with (size pattern). lia. }
  destruct (noisy_fill_finish pattern U t1 (Z.to_nat n)
              (pattern ∖ list_to_set removed))
    as (more2 & out & t' & Hfill).
  { pose proof (size_fresh_start pattern U removed). unfold len in *. lia. }
  exists (more1 ++ more2), out, t'. apply bind_Returned.
  exists removed, (t1 ++ more2). split; [| done].
  rewrite app_assoc. by apply pick_more.
Qed.

Lemma noisy_n_zero pattern (U : Z) t :
  noisy_n pattern 0 U t = Returned pattern t.
Proof.
  unfold noisy_n, bind. rewrite sample_in_range by (unfold len; lia).
  simpl. unfold ret. rewrite difference_empty_L. by destruct t.
Qed.

Lemma noisy_n_Starved pattern (n U : Z) t :
  pattern ≠ ∅ → (∀ v, v ∈ pattern → (0 ≤ v < U)%Z) →
  (0 ≤ n ≤ len pattern)%Z → (U - len pattern < n)%Z →
  noisy_n pattern n U t = Starved.
Proof.
  intros Hne Hin Hn HU.
  assert (HUpos : (0 < U)%Z).
  { apply set_choose_L in Hne as [v Hv]. specialize (Hin v Hv). lia. }
  unfold noisy_n, bind. rewrite sample_in_range by done.
  destruct (Random.pick _ _ t) as [removed t1| e |] eqn:Hp; [| | done].
  - apply noisy_fill_Starved; [done | |].
    + intros v Hv. apply Hin. set_solver.
    + replace (pattern ∪ pattern ∖ list_to_set removed) with pattern
        by set_solver.
      unfold len in *. lia.
  - exfalso. revert Hp. apply pick_not_Raised. unfold len in Hn.
    change (length (elements pattern)) with (size pattern). lia.
Qed.

Lemma noisy_n_ValueError pattern (n U : Z) t :
  (n < 0 ∨ len pattern < n)%Z → noisy_n pattern n U t = Raised ValueError.
Proof.
  intros Hn. unfold noisy_n, bind. by rewrite sample_out_of_range.
Qed.

End NoisyN.

(** ** [noisy] *)

Lemma py_int_zero (z : Z) : py_int (0 * inject_Z z) = 0.
Proof. unfold py_int. simpl. apply Z.quot_0_l. lia. Qed.

Lemma py_int_one (z : Z) : py_int (1 * inject_Z z) = z.
Proof.
  unfold py_int. cbn [Qmult Qnum Qden inject_Z Pos.mul].
  rewrite Z.mul_1_l. apply Z.quot_1_r.
Qed.





(** C3: at noise level 0 the result is the pattern itself, on every
    sequence of draws; at noise level 1, in a universe with room for
    [|P|] new cells, every result is disjoint from the pattern, the call
    never raises and can always still return. *)
Theorem noisy_extremes (pattern : SDR) (totalNumCells : Z) :
  (∀ t, noisy pattern 0 totalNumCells t = Returned pattern t)
  ∧ (len pattern ≤ totalNumCells - len pattern →
     (∀ t out t',
        noisy pattern 1 totalNumCells t = Returned out t' →
        out ∩ pattern = ∅)
     ∧ (∀ t e, noisy pattern 1 totalNumCells t ≠ Raised e)
     ∧ (∀ t, ∃ more out t',
          noisy pattern 1 totalNumCells (t ++ more) = Returned out t')).
Proof.
  split.
  - intros t. unfold noisy. rewrite py_int_zero. apply noisy_n_zero.
  - intros HU. unfold noisy. rewrite py_int_one.
    assert (Hn : 0 ≤ len pattern ≤ len pattern) by (unfold len; lia).
    split; [| split].
    + intros t out t' Hrun.
      apply noisy_n_Returned in Hrun as (_ & Hcap & _ & _).
      apply leibniz_equiv, size_empty_iff. unfold len in Hcap. lia.
    + intros t e. apply noisy_n_not_Raised; [done |]. unfold len in *. lia.
    + intros t. by apply noisy_n_finish.
Qed.

Lemma noisy_extremes_witness :
  (∀ t, noisy fourCells 0 10 t = Returned fourCells t)
  ∧ (∀ t out t',
       noisy fourCells 1 10 t = Returned out t' → out ∩ fourCells = ∅)
  ∧ (∀ t e, noisy fourCells 1 10 t ≠ Raised e)
  ∧ (∀ t, ∃ more out t',
       noisy fourCells 1 10 (t ++ more) = Returned out t').
Proof.
  destruct (noisy_extremes fourCells 10) as [Hzero Hone].
  split; [exact Hzero |]. apply Hone. vm_compute. discriminate.
Defined.



(** C4, as the code has it: when [n = int(noiseLevel * |P|)] exceeds
    [|P|] the call raises [ValueError] (from [random.sample]); when
    [0 <= n <= |P|] and the universe has fewer than [n] cells outside a
    non-empty pattern whose indices are all below [totalNumCells], the
    call neither raises nor returns: on every sequence of draws,
    however long, it is still waiting for a fresh index. *)
Theorem noisy_infeasible (pattern : SDR) (noiseLevel : Q) (totalNumCells : Z) :
  pattern ≠ ∅ → (∀ v, v ∈ pattern → 0 ≤ v < totalNumCells) →
  (len pattern < py_int (noiseLevel * inject_Z (len pattern)) →
   ∀ t, noisy pattern noiseLevel totalNumCells t = Raised ValueError)
  ∧ (0 ≤ py_int (noiseLevel * inject_Z (len pattern)) ≤ len pattern →
     totalNumCells - len pattern < py_int (noiseLevel * inject_Z (len pattern)) →
     ∀ t, noisy pattern noiseLevel totalNumCells t = Starved).
Proof.
  intros Hne Hin. unfold noisy. split.
  - intros Hn t. apply noisy_n_ValueError. by right.
  - intros Hn HU t. by apply noisy_n_Starved.
Qed.

Lemma twoCells_in_three : ∀ v, v ∈ twoCells → 0 ≤ v < 3.
Proof. unfold twoCells. intros v Hv. set_solver by lia. Qed.

Lemma twoCells_nonempty : twoCells ≠ ∅.
Proof. unfold twoCells. set_solver. Qed.

Lemma noisy_infeasible_witness :
  (∀ t, noisy twoCells 2 3 t = Raised ValueError)
  ∧ (∀ t, noisy twoCells 1 3 t = Starved).
Proof.
  split.
  - apply (noisy_infeasible twoCells 2 3 twoCells_nonempty twoCells_in_three).
    reflexivity.
  - apply (noisy_infeasible twoCells 1 3 twoCells_nonempty twoCells_in_three).
    + vm_compute. split; discriminate.
    + reflexivity.
Defined.

(** C4 as stated fails: two cells at noise level 1 in a universe of
    three need two fresh cells where one exists; no sequence of draws
    makes the call raise, it starves on all of them. *)
Lemma noisy_infeasible_never_raises :
  3 - len twoCells < py_int (1 * inject_Z (len twoCells))
  ∧ (∀ t, noisy twoCells 1 3 t = Starved)
  ∧ ¬ (∃ t e, noisy twoCells 1 3 t = Raised e).
Proof.
  assert (Hs : ∀ t, noisy twoCells 1 3 t = Starved).
  { intros t. unfold noisy. apply noisy_n_Starved.
    - apply twoCells_nonempty.
    - apply twoCells_in_three.
    - vm_compute. split; discriminate.
    - reflexivity. }
  split; [reflexivity |]. split; [exact Hs |].
  intros (t & e & Hr). by rewrite Hs in Hr.
Qed.

(** ** Loops and the trace *)

Section Loops.

Local Open Scope nat_scope.

Lemma index_Returned {St A} (l : list A) (i : nat) (s s' : St) (x : A) :
  index l i s = Returned x s' → l !! i = Some x ∧ s' = s.
Proof.
  unfold index. destruct (l !! i) as [y|]; [| done].
  by intros [= -> ->].
Qed.

Lemma getitem_Returned {St A} (d : gmap string A) (key : string) (s s' : St)
    (x : A) :
  getitem d key s = Returned x s' → d !! key = Some x ∧ s' = s.
Proof.
  unfold getitem. destruct (d !! key) as [y|]; [| done].
  by intros [= -> ->].
Qed.

Lemma emit_Returned (e : Event) (h h' : Heap) (u : unit) :
  emit e h = Returned u h' → trace h' = trace h ++ [e].
Proof. by intros [= _ <-]. Qed.

Lemma gauss_Returned (mu sigma : Q) (h h' : Heap) (x : Q) :
  gauss mu sigma h = Returned x h' → trace h' = trace h.
Proof.
  unfold gauss. destruct (normals h); [done |]. by intros [= _ <-].
Qed.

Lemma draw_Returned {A} (g : Random.Gen A) (h h' : Heap) (x : A) :
  draw g h = Returned x h' → trace h' = trace h.
Proof.
  unfold draw. destruct (g (rnd h)); [| done | done]. by intros [= _ <-].
Qed.

Lemma featureLocationSDR_Returned c name (h h' : Heap) (sdr : SDR) :
  featureLocationSDR c name h = Returned sdr h' → trace h' = trace h.
Proof.
  unfold featureLocationSDR.
  destruct (featureLocationSDRs h !! c) as [d|]; [| done].
  destruct (d !! name); [by intros [= _ <-] |].
  destruct (layer4sdr (rnd h)); [| done | done]. by intros [= _ <-].
Qed.

(** The body ran once per element, in order. *)
Lemma forEnum_Returned {St A B} (body : nat → A → Run St B) (l : list A) :
  ∀ i s ys s',
    forEnum body i l s = Returned ys s' →
    length ys = length l
    ∧ ∀ k x y, l !! k = Some x → ys !! k = Some y →
        ∃ s1 s2, body (i + k) x s1 = Returned y s2.
Proof.
  induction l as [|x l IH]; intros i s ys s'; simpl.
  - intros [= <- <-]. split; [done |]. intros k x y Hx. by destruct k.
  - intros (y & s1 & Hy & (ys' & s2 & Hys & [= <- <-])%bind_Returned)%bind_Returned.
    destruct (IH _ _ _ _ Hys) as [Hlen Hk].
    split; [simpl; by rewrite Hlen |].
    intros [|k] x' y'; simpl.
    + intros [= <-] [= <-]. exists s, s1. by rewrite Nat.add_0_r.
    + intros Hx' Hy'. destruct (Hk _ _ _ Hx' Hy') as (s3 & s4 & Hb).
      exists s3, s4. by rewrite <- Nat.add_succ_comm.
Qed.

(** When each run of the body appends the events [E i] of its column,
    the loop appends them column after column. *)
Lemma forEnum_trace {A B} (body : nat → A → M B) (E : nat → list Event → Prop)
    (l : list A) :
  (∀ i x h y h', body i x h = Returned y h' →
     ∃ evs, trace h' = trace h ++ evs ∧ E i evs) →
  ∀ i h ys h',
    forEnum body i l h = Returned ys h' →
    ∃ evss, trace h' = trace h ++ concat evss
            ∧ length evss = length l
            ∧ ∀ k evs, evss !! k = Some evs → E (i + k) evs.
Proof.
  intros Hbody. induction l as [|x l IH]; intros i h ys h'; simpl.
  - intros [= <- <-]. exists []. simpl. rewrite app_nil_r.
    split; [done |]. split; [done |]. intros k evs Hk. by destruct k.
  - intros (y & h1 & Hy & (ys' & h2 & Hys & [= <- <-])%bind_Returned)%bind_Returned.
    destruct (Hbody _ _ _ _ _ Hy) as (evs & Htr & HE).
    destruct (IH _ _ _ _ Hys) as (evss & Htr' & Hlen & HEs).
    exists (evs :: evss). simpl. split; [| split].
    + by rewrite Htr', Htr, app_assoc.
    + by rewrite Hlen.
    + intros [|k] evs'; simpl.
      * intros [= <-]. by rewrite Nat.add_0_r.
      * intros Hk. rewrite <- Nat.add_succ_comm. by apply HEs.
Qed.

Lemma times_S {St A} (body : A → Run St A) (n : nat) (a : A) (s : St) :
  times (S n) body a s
  = match body a s with
    | Returned a' s1 => times n body a' s1
    | Raised e => Raised e
    | Starved => Starved
    end.
Proof. reflexivity. Qed.

(** The last pass of a [for _ in xrange(n + 1)] loop. *)
Lemma times_last {St A} (body : A → Run St A) (n : nat) :
  ∀ a s, times (S n) body a s = (let* b := times n body a in body b) s.
Proof.
  induction n as [|n IH]; intros a s.
  - simpl. unfold bind, ret. by destruct (body a s).
  - rewrite times_S. unfold bind. rewrite times_S.
    destruct (body a s) as [a' s1| |]; [| done | done].
    by rewrite IH.
Qed.

(** The last item of a [for x in l] loop. *)
Lemma forEach_last {St A X} (body : A → X → Run St A) (l : list X) (x : X) :
  ∀ a s, forEach body a (l ++ [x]) s
         = (let* b := forEach body a l in body b x) s.
Proof.
  induction l as [|x' l IH]; intros a s; simpl.
  - unfold bind, ret. by destruct (body a x s).
  - unfold bind.
    destruct (body a x' s) as [a' s1| |]; [| done | done].
    by rewrite IH.
Qed.

(** The comprehension leaves out the column's own entry and keeps the
    others in order. *)
Lemma lateralInputsOf_shift (l : list SDR) :
  ∀ o i,
    snd <$> filter (λ p : nat * SDR, p.1 ≠ i) (imap (λ k x, (o + k, x)) l)
    = if decide (i < o) then l else delete (i - o) l.
Proof.
  induction l as [|x l IH]; intros o i.
  - simpl. by case_decide.
  - rewrite imap_cons.
    rewrite (imap_ext _ (λ k y, (S o + k, y))) by (intros; simpl; f_equal; lia).
    rewrite filter_cons. simpl. rewrite Nat.add_0_r.
    specialize (IH (S o) i). simpl in IH.
    destruct (decide (o ≠ i)) as [Hne | Heq].
    + rewrite fmap_cons, IH. simpl.
      destruct (decide (i < o)); destruct (decide (i < S o)); try lia; [done |].
      replace (i - o) with (S (i - S o)) by lia. done.
    + apply dec_stable in Heq. subst i. rewrite IH.
      rewrite decide_True by lia. rewrite decide_False by lia.
      by rewrite Nat.sub_diag.
Qed.

Lemma lateralInputsOf_delete (i : nat) (allLateralInputs : list SDR) :
  lateralInputsOf i allLateralInputs = delete i allLateralInputs.
Proof.
  unfold lateralInputsOf.
  pose proof (lateralInputsOf_shift allLateralInputs 0 i) as Hs.
  simpl in Hs. rewrite Nat.sub_0_r in Hs. exact Hs.
Qed.

End Loops.

(** ** The relaxation steps *)

Section Steps.

Context {L2 : Type} `{ColumnPooler L2}.

Local Open Scope nat_scope.

Lemma omap_rounds {B} (p : Event → option B) (f : nat → B)
    (evss : list (list Event)) :
  ∀ i, (∀ k evs, evss !! k = Some evs → omap p evs = [f (i + k)]) →
       omap p (concat evss) = f <$> seq i (length evss).
Proof.
  induction evss as [|evs evss IH]; intros i Hev; [done |].
  simpl. rewrite omap_app. rewrite (Hev 0 evs eq_refl), Nat.add_0_r.
  simpl. f_equal. apply IH. intros k evs' Hk.
  rewrite Nat.add_succ_comm. by apply (Hev (S k)).
Qed.

Lemma omap_rounds_nil {B} (p : Event → option B) (evss : list (list Event)) :
  (∀ k evs, evss !! k = Some evs → omap p evs = []) →
  omap p (concat evss) = [].
Proof.
  induction evss as [|evs evss IH]; intros Hev; [done |].
  simpl. rewrite omap_app. rewrite (Hev 0 evs eq_refl). simpl.
  apply IH. intros k evs' Hk. by apply (Hev (S k)).
Qed.

Lemma omap_rounds_length {B} (p : Event → option B) (n : nat)
    (evss : list (list Event)) :
  (∀ k evs, evss !! k = Some evs → length (omap p evs) = n) →
  length (omap p (concat evss)) = length evss * n.
Proof.
  induction evss as [|evs evss IH]; intros Hev; [done |].
  simpl. rewrite omap_app, length_app. rewrite (Hev 0 evs eq_refl).
  f_equal. apply IH. intros k evs' Hk. by apply (Hev (S k)).
Qed.

(** One pass of the learning loop: one [compute] per column, each on
    the active cells the other columns had when the pass began. *)
Lemma learnStep_trace (name : FeatureLocation) (cols cols' : list L2)
    (h h' : Heap) :
  learnStep name cols h = Returned cols' h' →
  length cols' = length cols
  ∧ ∃ evs, trace h' = trace h ++ evs
      ∧ computes evs
        = (λ i, (i, getActiveCells <$> delete i cols, true))
            <$> seq 0 (length cols)
      ∧ noiseLevels evs = [].
Proof.
  unfold learnStep. intros Hrun. split.
  { by apply forEnum_Returned in Hrun as [? _]. }
  eapply (forEnum_trace _
            (λ i evs, computes evs
                      = [(i, getActiveCells <$> delete i cols, true)]
                      ∧ noiseLevels evs = [])) in Hrun.
  - destruct Hrun as (evss & Htr & Hlen & HE).
    exists (concat evss). split; [done |]. split.
    + rewrite <- Hlen. apply omap_rounds. intros k evs Hk.
      by destruct (HE k evs Hk).
    + apply omap_rounds_nil. intros k evs Hk. by destruct (HE k evs Hk).
  - intros i l2 h0 y h1.
    intros (ff & h2 & Hff & (u & h3 & Hemit & [= <- <-])%bind_Returned)%bind_Returned.
    apply featureLocationSDR_Returned in Hff.
    apply emit_Returned in Hemit.
    eexists. split; [by rewrite Hemit, Hff |].
    simpl. by rewrite lateralInputsOf_delete, list_fmap_delete.
Qed.

(** One pass of the inference loop: per column one noise level and
    one [compute], again on the active cells the other columns had
    when the pass began. *)
Lemma inferStep_trace (featureLocations : list FeatureLocation)
    (sensorPositions : list nat) (noiseMu noiseSigma : Q)
    (cols cols' : list L2) (h h' : Heap) :
  inferStep featureLocations sensorPositions noiseMu noiseSigma cols h
  = Returned cols' h' →
  length cols' = length cols
  ∧ ∃ evs, trace h' = trace h ++ evs
      ∧ computes evs
        = (λ i, (i, getActiveCells <$> delete i cols, false))
            <$> seq 0 (length cols)
      ∧ length (noiseLevels evs) = length cols.
Proof.
  unfold inferStep. intros Hrun. split.
  { by apply forEnum_Returned in Hrun as [? _]. }
  eapply (forEnum_trace _
            (λ i evs, computes evs
                      = [(i, getActiveCells <$> delete i cols, false)]
                      ∧ length (noiseLevels evs) = 1)) in Hrun.
  - destruct Hrun as (evss & Htr & Hlen & HE).
    exists (concat evss). split; [done |]. split.
    + rewrite <- Hlen. apply omap_rounds. intros k evs Hk.
      by destruct (HE k evs Hk).
    + rewrite <- Hlen, <- (Nat.mul_1_r (length evss)).
      apply omap_rounds_length. intros k evs Hk. by destruct (HE k evs Hk).
  - intros i l2 h0 y h1.
    intros (nl & h2 & Hg & Hrest)%bind_Returned.
    apply bind_Returned in Hrest as (u & h3 & Hemit1 & Hrest).
    apply bind_Returned in Hrest as (pos & h4 & [_ ->]%index_Returned & Hrest).
    apply bind_Returned in Hrest as (name & h5 & [_ ->]%index_Returned & Hrest).
    apply bind_Returned in Hrest as (ff & h6 & Hff & Hrest).
    apply bind_Returned in Hrest as (ff' & h7 & Hnoisy & Hrest).
    apply bind_Returned in Hrest as (u' & h8 & Hemit2 & [= <- <-]).
    apply gauss_Returned in Hg. apply emit_Returned in Hemit1.
    apply featureLocationSDR_Returned in Hff.
    apply draw_Returned in Hnoisy. apply emit_Returned in Hemit2.
    eexists. split.
    + rewrite Hemit2, Hnoisy, Hff, Hemit1, Hg, <- app_assoc. done.
    + simpl. by rewrite lateralInputsOf_delete, list_fmap_delete.
Qed.

End Steps.

Lemma size_split (X Y : SDR) :
  (size (X ∩ Y) + size (X ∖ Y) = size X ∧ size (X ∩ Y) ≤ size Y)%nat.
Proof.
  split.
  - pose proof (size_difference_alt X Y) as Hd.
    assert (size (X ∩ Y) ≤ size X)%nat by (apply subseteq_size; set_solver).
    lia.
  - apply subseteq_size. set_solver.
Qed.

(** ** The touches *)

Section Touches.

Context {L2 : Type} `{ColumnPooler L2}.

Local Open Scope nat_scope.

Lemma columns_of_calls (g : nat → list SDR) (b : bool) (l : list nat) :
  ((λ i, (i, g i, b)) <$> l).*1.*1 = l.
Proof. induction l as [|i l IH]; [done |]. by rewrite !fmap_cons, IH. Qed.

Lemma calls_of_column (g : nat → list SDR) (b : bool) (c n : nat) :
  ∀ o, length (filter (λ x : nat * list SDR * bool, x.1.1 = c)
                 ((λ i, (i, g i, b)) <$> seq o n))
       = if decide (o ≤ c < o + n) then 1 else 0.
Proof.
  induction n as [|n IH]; intros o.
  - simpl. case_decide; [lia | done].
  - rewrite <- cons_seq, fmap_cons, filter_cons. specialize (IH (S o)).
    cbn [fst]. destruct (decide (o = c)) as [-> | Hne].
    + rewrite length_cons, IH. rewrite decide_False by lia.
      rewrite decide_True by lia. done.
    + rewrite IH. repeat case_decide; lia.
Qed.

(** C5: in every pass of the learning loop and of the inference loop,
    the [compute] calls are one per column, in column order, and the
    lateral inputs of column [i] are the active cells of the columns
    other than [i] as they were when the pass began. *)
Theorem lateral_inputs_are_a_snapshot :
  (∀ (name : FeatureLocation) (cols cols' : list L2) (h h' : Heap),
     learnStep name cols h = Returned cols' h' →
     computes (drop (length (trace h)) (trace h'))
     = (λ i, (i, getActiveCells <$> delete i cols, true))
         <$> seq 0 (length cols))
  ∧ (∀ (featureLocations : list FeatureLocation) (sensorPositions : list nat)
       (noiseMu noiseSigma : Q) (cols cols' : list L2) (h h' : Heap),
       inferStep featureLocations sensorPositions noiseMu noiseSigma cols h
       = Returned cols' h' →
       computes (drop (length (trace h)) (trace h'))
       = (λ i, (i, getActiveCells <$> delete i cols, false))
           <$> seq 0 (length cols)).
Proof.
  split.
  - intros name cols cols' h h' (_ & evs & -> & Hc & _)%learnStep_trace.
    by rewrite drop_app_length.
  - intros fls pos mu sigma cols cols' h h'
      (_ & evs & -> & Hc & _)%inferStep_trace.
    by rewrite drop_app_length.
Qed.

(** C8, as the code has it: a feature-location is learnt in exactly
    four passes; each pass calls [compute] once per column, in column
    order, with [learn = True], and draws no noise level; so each
    column's [compute] runs exactly four times per feature-location. *)
Theorem learning_makes_four_passes (name : FeatureLocation)
    (cols cols' : list L2) (h h' : Heap) :
  learnFeatureLocation cols name h = Returned cols' h' →
  let calls := computes (drop (length (trace h)) (trace h')) in
  calls.*1.*1
  = seq 0 (length cols) ++ seq 0 (length cols)
    ++ seq 0 (length cols) ++ seq 0 (length cols)
  ∧ Forall (λ x, x.2 = true) calls
  ∧ noiseLevels (drop (length (trace h)) (trace h')) = []
  ∧ ∀ c, c < length cols →
      length (filter (λ x : nat * list SDR * bool, x.1.1 = c) calls) = 4.
Proof.
  unfold learnFeatureLocation. simpl.
  intros (c1 & h1 & H1 & H2)%bind_Returned.
  apply bind_Returned in H2 as (c2 & h2 & H2 & H3).
  apply bind_Returned in H3 as (c3 & h3 & H3 & H4).
  apply bind_Returned in H4 as (c4 & h4 & H4 & [= <- <-]).
  apply learnStep_trace in H1 as (L1 & e1 & T1 & C1 & N1).
  apply learnStep_trace in H2 as (L2' & e2 & T2 & C2 & N2).
  apply learnStep_trace in H3 as (L3 & e3 & T3 & C3 & N3).
  apply learnStep_trace in H4 as (L4 & e4 & T4 & C4 & N4).
  rewrite L3, L2', L1 in C4. rewrite L2', L1 in C3. rewrite L1 in C2.
  assert (Htr : trace h4 = trace h ++ (e1 ++ e2 ++ e3 ++ e4)).
  { rewrite T4, T3, T2, T1. by rewrite <- !app_assoc. }
  rewrite Htr, drop_app_length.
  unfold computes, noiseLevels in *. rewrite !omap_app.
  rewrite C1, C2, C3, C4, N1, N2, N3, N4.
  split; [| split; [| split]].
  - rewrite !fmap_app. by rewrite !columns_of_calls.
  - rewrite !Forall_app. split_and!; by apply Forall_fmap, Forall_true.
  - done.
  - intros c Hc. rewrite !filter_app, !length_app, !calls_of_column.
    rewrite decide_True by lia. done.
Qed.

(** C6: the representation recorded for an object is, column by
    column, the active cells right after the last pass on the last
    feature-location, and the columns are reset only after that: the
    heap the call ends with is the one that pass left. *)
Theorem learned_representation_precedes_reset
    (cols cols' : list L2) (reps reps' : gmap string (list SDR))
    (objectName : string) (featureLocations : list FeatureLocation)
    (last : FeatureLocation) (h h' : Heap) :
  learnObject (cols, reps) (objectName, featureLocations ++ [last]) h
  = Returned (cols', reps') h' →
  ∃ (colsA : list L2) (hA : Heap) (colsB : list L2) (hB : Heap)
    (colsF : list L2),
    forEach learnFeatureLocation cols featureLocations h = Returned colsA hA
    ∧ times 3 (learnStep last) colsA hA = Returned colsB hB
    ∧ learnStep last colsB hB = Returned colsF h'
    ∧ reps' = <[objectName := getActiveCells <$> colsF]> reps
    ∧ reps' !! objectName = Some (getActiveCells <$> colsF)
    ∧ cols' = reset <$> colsF.
Proof.
  unfold learnObject.
  intros (colsF & hF & Hloop & [= <- <- <-])%bind_Returned.
  rewrite forEach_last in Hloop.
  apply bind_Returned in Hloop as (colsA & hA & HA & Hlast).
  unfold learnFeatureLocation in Hlast. rewrite times_last in Hlast.
  apply bind_Returned in Hlast as (colsB & hB & HB & HF).
  exists colsA, hA, colsB, hB, colsF.
  split_and!; try done. by rewrite lookup_insert_eq.
Qed.

(** C10: a touch before the test touches records nothing; a test
    touch records one pair per column, and the pair of a column
    splits its active cells after the touch has settled into those in
    the learned representation of the object and those outside it. *)
Theorem trial_results_split_active_cells
    (featureLocations : list FeatureLocation)
    (sensorPositionsIterator : nat → list nat) (noiseMu noiseSigma : Q)
    (numInitialTouches : Z)
    (objectL2Representations : gmap string (list SDR)) (objectName : string)
    (cols cols' : list L2) (results results' : list (nat * nat))
    (touch : Z) (h h' : Heap) :
  inferTouch featureLocations sensorPositionsIterator noiseMu noiseSigma
    numInitialTouches objectL2Representations objectName
    (cols, results) touch h
  = Returned (cols', results') h' →
  ((touch < numInitialTouches)%Z ∧ results' = results)
  ∨ ((numInitialTouches ≤ touch)%Z
     ∧ ∃ new, results' = results ++ new
         ∧ length new = length cols'
         ∧ ∀ k l2 r, cols' !! k = Some l2 → new !! k = Some r →
             ∃ correct correctCells,
               objectL2Representations !! objectName = Some correct
               ∧ correct !! k = Some correctCells
               ∧ r = (size (getActiveCells l2 ∩ correctCells),
                      size (getActiveCells l2 ∖ correctCells))
               ∧ r.1 + r.2 = size (getActiveCells l2)
               ∧ r.1 ≤ size correctCells).
Proof.
  unfold inferTouch.
  intros (colsS & h1 & _ & Hrec)%bind_Returned.
  destruct (numInitialTouches <=? touch)%Z eqn:Htouch.
  - apply Z.leb_le in Htouch. right. split; [done |].
    apply bind_Returned in Hrec as (res & h2 & Hrec & [= <- <- <-]).
    unfold recordResults in Hrec.
    apply bind_Returned in Hrec as (new & h3 & Hnew & [= <- <-]).
    apply forEnum_Returned in Hnew as [Hlen Hk].
    exists new. split; [done |]. split; [done |].
    intros k l2 r Hl2 Hr.
    destruct (Hk k l2 r Hl2 Hr) as (s1 & s2 & Hbody).
    apply bind_Returned in Hbody as (correct & s3 & [Hd _]%getitem_Returned & Hbody).
    apply bind_Returned in Hbody
      as (correctCells & s4 & [Hc _]%index_Returned & [= <- _]).
    exists correct, correctCells. simpl.
    destruct (size_split (getActiveCells l2) correctCells). done.
  - apply Z.leb_gt in Htouch. left. split; [done |].
    by injection Hrec as <- <- <-.
Qed.

End Touches.

Lemma lateral_inputs_are_a_snapshot_witness :
  (∃ cols' h',
     learnStep (L2 := SDR) Demo.featureA Demo.cols2 Demo.twoColumns
     = Returned cols' h'
     ∧ computes (drop (length (trace Demo.twoColumns)) (trace h'))
       = (λ i, (i, getActiveCells <$> delete i Demo.cols2, true))
           <$> seq 0 (length Demo.cols2))
  ∧ (∃ cols' h',
       inferStep (L2 := SDR) [Demo.featureA] [0%nat; 0%nat] (1 # 2) 0
         Demo.cols2 Demo.twoColumns
       = Returned cols' h'
       ∧ computes (drop (length (trace Demo.twoColumns)) (trace h'))
         = (λ i, (i, getActiveCells <$> delete i Demo.cols2, false))
             <$> seq 0 (length Demo.cols2)).
Proof.
  split.
  - eexists _, _. split; [vm_compute; reflexivity |].
    eapply (proj1 lateral_inputs_are_a_snapshot Demo.featureA Demo.cols2).
    vm_compute. reflexivity.
  - eexists _, _. split; [vm_compute; reflexivity |].
    eapply (proj2 lateral_inputs_are_a_snapshot [Demo.featureA] [0%nat; 0%nat]
             (1 # 2) 0%Q Demo.cols2).
    vm_compute. reflexivity.
Defined.

Lemma learning_makes_four_passes_witness :
  ∃ cols' h',
    learnFeatureLocation (L2 := SDR) Demo.cols2 Demo.featureA Demo.twoColumns
    = Returned cols' h'
    ∧ let calls :=
        computes (drop (length (trace Demo.twoColumns)) (trace h')) in
      calls.*1.*1
      = (seq 0 (length Demo.cols2) ++ seq 0 (length Demo.cols2)
         ++ seq 0 (length Demo.cols2) ++ seq 0 (length Demo.cols2))%nat
      ∧ Forall (λ x, x.2 = true) calls
      ∧ noiseLevels (drop (length (trace Demo.twoColumns)) (trace h')) = []
      ∧ ∀ c, (c < length Demo.cols2)%nat →
          length (filter (λ x : nat * list SDR * bool, x.1.1 = c) calls)
          = 4%nat.
Proof.
  eexists _, _. split; [vm_compute; reflexivity |].
  eapply (learning_makes_four_passes Demo.featureA Demo.cols2).
  vm_compute. reflexivity.
Defined.

(** C8 as stated fails: with one column, one pass of the learning
    loop calls [compute] once, and learning a feature-location calls it
    four times, once per pass; that is not [repetitions] touches of
    three or four relaxation steps each, for 4 repetitions or for any
    number of repetitions above one. *)
Lemma learning_is_not_repetitions_times_steps :
  (∃ cols' h',
     learnStep (L2 := SDR) Demo.featureA Demo.cols1 Demo.oneColumn
     = Returned cols' h'
     ∧ length (computes (trace h')) = 1%nat)
  ∧ ∃ cols' h',
      learnFeatureLocation (L2 := SDR) Demo.cols1 Demo.featureA Demo.oneColumn
      = Returned cols' h'
      ∧ length (computes (trace h')) = 4%nat
      ∧ length (computes (trace h')) ≠ (4 * 3)%nat
      ∧ length (computes (trace h')) ≠ (4 * 4)%nat
      ∧ ¬ (∃ repetitions steps : nat,
             (2 ≤ repetitions)%nat ∧ (3 ≤ steps ≤ 4)%nat
             ∧ length (computes (trace h')) = (repetitions * steps)%nat).
Proof.
  split.
  { eexists _, _. split; [vm_compute; reflexivity |]. vm_compute. reflexivity. }
  eexists _, _. split; [vm_compute; reflexivity |].
  match goal with
  | |- ?n = _ ∧ _ =>
      assert (Hn : n = 4%nat) by (vm_compute; reflexivity); rewrite Hn
  end.
  split; [reflexivity |]. split; [lia |]. split; [lia |].
  intros (repetitions & steps & Hr & Hs & Hcount). nia.
Qed.

Lemma learned_representation_precedes_reset_witness :
  ∃ cols' reps' h',
    learnObject (L2 := SDR) (Demo.cols1, ∅) ("Object 1"%string, [] ++ [Demo.featureA])
      Demo.oneColumn
    = Returned (cols', reps') h'
    ∧ ∃ (colsA : list SDR) (hA : Heap) (colsB : list SDR) (hB : Heap)
        (colsF : list SDR),
        forEach learnFeatureLocation Demo.cols1 [] Demo.oneColumn
        = Returned colsA hA
        ∧ times 3 (learnStep Demo.featureA) colsA hA = Returned colsB hB
        ∧ learnStep Demo.featureA colsB hB = Returned colsF h'
        ∧ reps' = <["Object 1"%string := getActiveCells <$> colsF]> ∅
        ∧ reps' !! "Object 1"%string = Some (getActiveCells <$> colsF)
        ∧ cols' = reset <$> colsF.
Proof.
  eexists _, _, _. split; [vm_compute; reflexivity |].
  eapply (learned_representation_precedes_reset Demo.cols1).
  vm_compute. reflexivity.
Defined.

(** In that instance the recorded representation is the four cells the
    column showed after its last pass, and the column comes back
    cleared. *)
Example learned_representation_demo :
  learnObject (L2 := SDR) (Demo.cols1, ∅) ("Object 1"%string, [Demo.featureA])
    Demo.oneColumn
  = Returned ([∅], Demo.learned)
      (mkHeap Demo.draws (replicate 12 0%Q) [Demo.codebook]
         (replicate 4 (EvCompute 0 fourCells [] true))).
Proof. vm_compute. reflexivity. Qed.

Lemma trial_results_split_active_cells_witness :
  ∃ cols' results' h',
    inferTouch (L2 := SDR) [Demo.featureA] (Echo.placement 1%nat 1%nat)
      (1 # 2) 0 0 Demo.learned "Object 1"%string (Demo.cols1, []) 0
      Demo.oneColumn
    = Returned (cols', results') h'
    ∧ (((0 < 0)%Z ∧ results' = [])
       ∨ ((0 ≤ 0)%Z
          ∧ ∃ new, results' = [] ++ new
              ∧ length new = length cols'
              ∧ ∀ k l2 r, cols' !! k = Some l2 → new !! k = Some r →
                  ∃ correct correctCells,
                    Demo.learned !! "Object 1"%string = Some correct
                    ∧ correct !! k = Some correctCells
                    ∧ r = (size (getActiveCells l2 ∩ correctCells),
                           size (getActiveCells l2 ∖ correctCells))
                    ∧ (r.1 + r.2 = size (getActiveCells l2))%nat
                    ∧ (r.1 ≤ size correctCells)%nat)).
Proof.
  eexists _, _, _. split; [vm_compute; reflexivity |].
  eapply (trial_results_split_active_cells [Demo.featureA]
            (Echo.placement 1%nat 1%nat) (1 # 2) 0%Q 0 Demo.learned
            "Object 1"%string Demo.cols1 _ [] _ 0 Demo.oneColumn).
  vm_compute. reflexivity.
Defined.

(** ** The success rate *)

Lemma numPassed_le (cT iT : nat) (trials : list (nat * nat)) :
  (numPassed cT iT trials ≤ length trials)%nat.
Proof. unfold numPassed. apply length_filter. Qed.

(** C7: over a non-empty list of results the success rate is the
    number of results with at least [correctThreshold] correctly active
    and at most [incorrectThreshold] incorrectly active cells, divided
    by the number of results; over (6,1) and (3,3) with thresholds 5
    and 2 it is 1/2; over no result it is a [ZeroDivisionError]. *)
Theorem successRate_is_the_passing_fraction :
  (∀ (correctThreshold incorrectThreshold : nat) (t : nat * nat)
     (ts : list (nat * nat)),
     ∃ q : Q,
       successRate correctThreshold incorrectThreshold (t :: ts) = inr q
       ∧ (q * inject_Z (Z.of_nat (length (t :: ts)))
          == inject_Z (Z.of_nat
               (length (filter (λ r : nat * nat,
                                  (correctThreshold ≤ r.1)%nat
                                  ∧ (r.2 ≤ incorrectThreshold)%nat)
                          (t :: ts)))))%Q
       ∧ (0 <= q)%Q ∧ (q <= 1)%Q)
  ∧ successRate 5 2 [(6, 1); (3, 3)]%nat = inr (1 # 2)
  ∧ (∀ correctThreshold incorrectThreshold : nat,
       successRate correctThreshold incorrectThreshold []
       = inl ZeroDivisionError).
Proof.
  split; [| split; [reflexivity | reflexivity]].
  intros cT iT t ts. eexists. split; [reflexivity |].
  fold (numPassed cT iT (t :: ts)).
  pose proof (numPassed_le cT iT (t :: ts)) as Hle.
  set (p := numPassed cT iT (t :: ts)) in *.
  set (n := length (t :: ts)) in *.
  assert (Hn : (0 < n)%nat) by (unfold n; simpl; lia).
  assert (Hn0 : ¬ (inject_Z (Z.of_nat n) == 0)%Q).
  { unfold Qeq. simpl. lia. }
  split; [| split].
  - field. exact Hn0.
  - apply Qle_shift_div_l.
    + unfold Qlt. simpl. lia.
    + rewrite Qmult_0_l. unfold Qle. simpl. lia.
  - apply Qle_shift_div_r.
    + unfold Qlt. simpl. lia.
    + rewrite Qmult_1_l. rewrite <- Zle_Qle. lia.
Qed.

(** ** Noise during inference *)

Section Noise.

Context {L2 : Type} `{ColumnPooler L2}.

Local Open Scope nat_scope.

Lemma forEnum_pure {St A B} (body : nat → A → Run St B) (l : list A) :
  (∀ i x s y s', body i x s = Returned y s' → s' = s) →
  ∀ i s ys s', forEnum body i l s = Returned ys s' → s' = s.
Proof.
  intros Hbody. induction l as [|x l IH]; intros i s ys s'; simpl.
  - by intros [= _ <-].
  - intros (y & s1 & Hy & (ys' & s2 & Hys & [= _ <-])%bind_Returned)%bind_Returned.
    apply Hbody in Hy as ->. by apply IH in Hys.
Qed.

Lemma recordResults_heap (reps : gmap string (list SDR)) (name : string)
    (cols : list L2) (results results' : list (nat * nat)) (h h' : Heap) :
  recordResults reps name cols results h = Returned results' h' → h' = h.
Proof.
  unfold recordResults.
  intros (new & h1 & Hnew & [= _ <-])%bind_Returned.
  eapply forEnum_pure in Hnew; [done |].
  intros i x s y s' (d & s1 & [_ ->]%getitem_Returned & Hrest)%bind_Returned.
  by apply bind_Returned in Hrest
    as (c & s2 & [_ ->]%index_Returned & [= _ <-]).
Qed.

(** Every touch of the inference loop draws three noise levels per
    column, one in each of its three passes. *)
Lemma inferTouch_noise_levels (featureLocations : list FeatureLocation)
    (sensorPositionsIterator : nat → list nat) (noiseMu noiseSigma : Q)
    (numInitialTouches : Z) (reps : gmap string (list SDR)) (name : string)
    (cols cols' : list L2) (results results' : list (nat * nat))
    (touch : Z) (h h' : Heap) :
  inferTouch featureLocations sensorPositionsIterator noiseMu noiseSigma
    numInitialTouches reps name (cols, results) touch h
  = Returned (cols', results') h' →
  length (noiseLevels (drop (length (trace h)) (trace h')))
  = 3 * length cols.
Proof.
  unfold inferTouch.
  intros (colsS & h1 & Hsettle & Hrec)%bind_Returned.
  assert (Htr : trace h' = trace h1).
  { destruct (numInitialTouches <=? touch)%Z.
    - apply bind_Returned in Hrec as (res & h2 & Hrec & [= _ _ <-]).
      by apply recordResults_heap in Hrec as ->.
    - by injection Hrec as _ _ <-. }
  rewrite Htr. clear Hrec Htr. simpl in Hsettle.
  apply bind_Returned in Hsettle as (c1 & s1 & H1 & H2).
  apply bind_Returned in H2 as (c2 & s2 & H2 & H3).
  apply bind_Returned in H3 as (c3 & s3 & H3 & [= _ <-]).
  apply inferStep_trace in H1 as (L1 & e1 & T1 & _ & N1).
  apply inferStep_trace in H2 as (L2' & e2 & T2 & _ & N2).
  apply inferStep_trace in H3 as (L3 & e3 & T3 & _ & N3).
  rewrite T3, T2, T1, <- !app_assoc, drop_app_length.
  unfold noiseLevels in *. rewrite !omap_app, !length_app.
  rewrite N1, N2, N3, L2', L1. lia.
Qed.

End Noise.

(** C1 fails on the code: with one column and one test touch, the
    experiment draws three noise levels for that touch, one per pass,
    and feeds the column three different noisy patterns. *)
Theorem noise_is_redrawn_in_every_pass :
  ∃ results h',
    Demo.experiment = Returned results h'
    ∧ length results = 1%nat
    ∧ length (noiseLevels (trace h')) = 3%nat
    ∧ length (drop 4 (feedforwards (trace h'))) = 3%nat
    ∧ NoDup (drop 4 (feedforwards (trace h'))).
Proof.
  eexists _, _. split; [vm_compute; reflexivity |].
  split; [vm_compute; reflexivity |].
  split; [vm_compute; reflexivity |].
  split; [vm_compute; reflexivity |].
  match goal with |- ?P => apply (bool_decide_unpack P) end.
  vm_compute. exact I.
Qed.

(** * Further properties *)

(** ** More on [noisy] *)

Section NoisyMore.

Local Open Scope nat_scope.
Implicit Types (pattern noised out : SDR) (t : Random.Tape).

(** A sample uses exactly [k] draws and looks at no other. *)
Lemma pick_uses (k : nat) :
  ∀ (pool : list Z) t xs t',
    Random.pick pool k t = Returned xs t' →
    ∃ used, t = used ++ t' ∧ length used = k
            ∧ ∀ more, Random.pick pool k (used ++ more) = Returned xs more.
Proof.
  induction k as [|k IH]; intros pool t xs t'; simpl.
  - intros [= <- <-]. by exists [].
  - destruct t as [|r t]; [done |].
    destruct (pool !! _) as [x|] eqn:Hx; [| done].
    intros (ys & t1 & Hys & [= <- <-])%bind_Returned.
    destruct (IH _ _ _ _ Hys) as (used & -> & Hlen & Hmore).
    exists (r :: used). split; [done |]. split; [simpl; by rewrite Hlen |].
    intros more. simpl. rewrite Hx. apply bind_Returned.
    exists ys, more. by split.
Qed.

(** The rejection loop uses at least one draw per round and looks at no
    draw after the one that ends it. *)
Lemma noisy_fill_uses pattern (U : Z) t :
  ∀ k noised out t',
    noisy_fill pattern U t k noised = Returned out t' →
    ∃ used, t = used ++ t' ∧ k ≤ length used
            ∧ ∀ more, noisy_fill pattern U (used ++ more) k noised
                      = Returned out more.
Proof.
  induction t as [|r t IH]; intros [|k] noised out t'; simpl.
  - intros [= <- <-]. exists []. split; [done |]. split; [done |].
    intros more. by destruct more.
  - by destruct (U <=? 0)%Z.
  - intros [= <- <-]. exists []. split; [done |]. split; [done |].
    intros more. by destruct more.
  - destruct (U <=? 0)%Z eqn:HU; [done |].
    case_decide as Hv.
    + intros (used & -> & Hlen & Hmore)%IH.
      exists (r :: used). split; [done |]. split; [simpl; lia |].
      intros more. simpl. rewrite HU. by rewrite decide_True.
    + intros (used & -> & Hlen & Hmore)%IH.
      exists (r :: used). split; [done |]. split; [simpl; lia |].
      intros more. simpl. rewrite HU. by rewrite decide_False.
Qed.

(** The cells the rejection loop adds are cells of the universe. *)
Lemma noisy_fill_in_cells pattern (U : Z) t :
  ∀ k noised out t',
    noisy_fill pattern U t k noised = Returned out t' →
    ∀ v, v ∈ out → v ∈ noised ∨ (0 ≤ v < U)%Z.
Proof.
  induction t as [|r t IH]; intros [|k] noised out t'; simpl;
    try (intros [= <- <-]; by left).
  - by destruct (U <=? 0)%Z.
  - destruct (U <=? 0)%Z eqn:HU; [done |]. apply Z.leb_gt in HU.
    case_decide as Hv.
    + intros Hrun v Hin.
      destruct (IH _ _ _ _ Hrun v Hin) as [[->%elem_of_singleton | ?]%elem_of_union | ?].
      * right. apply Z.mod_pos_bound. lia.
      * by left.
      * by right.
    + apply IH.
Qed.

End NoisyMore.

Lemma py_int_num_zero (q x : Q) : Qnum q = 0 → py_int (q * x) = 0.
Proof.
  intros Hq. unfold py_int. cbn [Qmult Qnum Qden]. rewrite Hq.
  rewrite Z.mul_0_l. apply Z.quot_0_l. lia.
Qed.



Lemma noisy_new_cells (pattern : SDR) (noiseLevel : Q) (U : Z)
    (t : Random.Tape) (out : SDR) (t' : Random.Tape) :
  noisy pattern noiseLevel U t = Returned out t' →
  ∀ v, v ∈ out → v ∈ pattern ∨ 0 ≤ v < U.
Proof.
  unfold noisy, noisy_n.
  intros (removed & t1 & _ & Hfill)%bind_Returned v Hv.
  destruct (noisy_fill_in_cells _ _ _ _ _ _ _ Hfill v Hv) as [Hin | ?];
    [left; set_solver | by right].
Qed.

(** X1: every cell of a result of [noisy] is a cell of the pattern or an
    index of [0 .. totalNumCells - 1]; when the pattern lies in that
    range, so does the result. *)
Theorem noisy_stays_in_universe (pattern : SDR) (noiseLevel : Q)
    (totalNumCells : Z) (t : Random.Tape) (out : SDR) (t' : Random.Tape) :
  noisy pattern noiseLevel totalNumCells t = Returned out t' →
  (∀ v, v ∈ out → v ∈ pattern ∨ 0 ≤ v < totalNumCells)
  ∧ ((∀ v, v ∈ pattern → 0 ≤ v < totalNumCells) →
     ∀ v, v ∈ out → 0 ≤ v < totalNumCells).
Proof.
  intros Hrun. pose proof (noisy_new_cells _ _ _ _ _ _ Hrun) as Hout.
  split; [exact Hout |].
  intros HP v Hv. destruct (Hout v Hv) as [? | ?]; [by apply HP | done].
Qed.

Lemma noisy_stays_in_universe_witness :
  ∃ out t',
    noisy fourCells (1 # 2) 8 Cases.halfNoise = Returned out t'
    ∧ ∀ v, v ∈ out → 0 ≤ v < 8.
Proof.
  eexists _, _. split; [vm_compute; reflexivity |].
  refine (proj2 (noisy_stays_in_universe fourCells (1 # 2) 8 Cases.halfNoise
                   _ _ _) _).
  - vm_compute. reflexivity.
  - intros v. unfold fourCells.
    rewrite !elem_of_union, !elem_of_singleton. lia.
Defined.

(** X2: a call of [noisy] that returns has read a prefix of the draws, at
    least two for each of the [int(noiseLevel * len(pattern))] cells it
    swaps, and leaves the rest untouched: on that prefix followed by any
    other draws it returns the same result. *)
Theorem noisy_uses_a_prefix (pattern : SDR) (noiseLevel : Q)
    (totalNumCells : Z) (t : Random.Tape) (out : SDR) (t' : Random.Tape) :
  noisy pattern noiseLevel totalNumCells t = Returned out t' →
  ∃ used,
    t = used ++ t'
    ∧ 2 * py_int (noiseLevel * inject_Z (len pattern)) ≤ Z.of_nat (length used)
    ∧ ∀ more,
        noisy pattern noiseLevel totalNumCells (used ++ more)
        = Returned out more.
Proof.
  unfold noisy, noisy_n.
  set (n := py_int (noiseLevel * inject_Z (len pattern))).
  intros (removed & t1 & Hs & Hfill)%bind_Returned.
  pose proof Hs as Hs'.
  apply sample_Returned in Hs' as (Hn & _); [| apply NoDup_elements].
  rewrite sample_in_range in Hs by done.
  apply pick_uses in Hs as (used1 & -> & Hlen1 & Hmore1).
  apply noisy_fill_uses in Hfill as (used2 & -> & Hlen2 & Hmore2).
  exists (used1 ++ used2). split; [by rewrite app_assoc |].
  split; [rewrite length_app; lia |].
  intros more. apply bind_Returned.
  exists removed, (used2 ++ more). split; [| apply Hmore2].
  rewrite sample_in_range by done. rewrite <- app_assoc. apply Hmore1.
Qed.

Lemma noisy_uses_a_prefix_witness :
  ∃ out t',
    noisy fourCells (1 # 2) 8 Cases.halfNoise = Returned out t'
    ∧ ∃ used,
        Cases.halfNoise = used ++ t'
        ∧ 2 * py_int ((1 # 2) * inject_Z (len fourCells))
          ≤ Z.of_nat (length used)
        ∧ ∀ more,
            noisy fourCells (1 # 2) 8 (used ++ more) = Returned out more.
Proof.
  eexists _, _. split; [vm_compute; reflexivity |].
  eapply (noisy_uses_a_prefix fourCells (1 # 2) 8 Cases.halfNoise).
  vm_compute. reflexivity.
Defined.



(** ** Exact use of draws by [random.sample] *)

Section SampleExact.

Local Open Scope nat_scope.


End SampleExact.



(** ** The codebooks *)

Section Codebooks.

Local Open Scope nat_scope.

#[global] Instance keeps_codes_preorder : PreOrder keeps_codes.
Proof.
  split.
  - intros h. by split.
  - intros h1 h2 h3 [L1 C1] [L2 C2]. split; [congruence |].
    intros c name sdr Hc. by apply C2, C1.
Qed.

Lemma keeps_codes_same (h h' : Heap) :
  featureLocationSDRs h' = featureLocationSDRs h → keeps_codes h h'.
Proof. intros Heq. unfold keeps_codes, code. by rewrite Heq. Qed.

Lemma code_insert (h : Heap) (c : nat) (d : gmap FeatureLocation SDR)
    (name : FeatureLocation) (sdr : SDR) (books : list (gmap FeatureLocation SDR)) :
  books !! c = Some d →
  (<[c := <[name := sdr]> d]> books) !! c ≫= (.!! name) = Some sdr.
Proof.
  intros Hd. rewrite list_lookup_insert_eq by (by eapply lookup_lt_Some).
  simpl. by rewrite lookup_insert_eq.
Qed.

(** A lookup returns the SDR the codebook holds afterwards, and changes
    no SDR the codebooks held before. *)
Lemma featureLocationSDR_spec (c : nat) (name : FeatureLocation)
    (h h' : Heap) (sdr : SDR) :
  featureLocationSDR c name h = Returned sdr h' →
  code h' c name = Some sdr ∧ keeps_codes h h'
  ∧ trace h' = trace h ∧ normals h' = normals h
  ∧ (is_Some (code h c name) → h' = h).
Proof.
  unfold featureLocationSDR, code.
  destruct (featureLocationSDRs h !! c) as [d|] eqn:Hd; [| done]. simpl.
  destruct (d !! name) as [old|] eqn:Hold.
  - intros [= <- <-]. rewrite Hd. simpl. by rewrite Hold.
  - destruct (layer4sdr (rnd h)) as [new t'| |]; [| done | done].
    intros [= <- <-]. simpl. split; [by eapply code_insert |].
    split; [| split; [done | split; [done |]]].
    + split; [simpl; by rewrite length_insert |].
      intros c' name' sdr'. unfold code. simpl.
      destruct (decide (c' = c)) as [-> | Hne].
      * rewrite Hd. simpl. intros Hsdr'.
        rewrite list_lookup_insert_eq by (by eapply lookup_lt_Some). simpl.
        rewrite lookup_insert_ne; [done |]. intros <-. congruence.
      * by rewrite list_lookup_insert_ne.
    + intros [? ?]. congruence.
Qed.

End Codebooks.

(** ** Loops that only take the state upwards *)

Section Growth.

Context {St : Type} (le : St → St → Prop) `{!PreOrder le}.

Local Open Scope nat_scope.

Lemma Grows_ret {A} (a : A) : Grows le (ret a).
Proof. by intros s a' s' [= _ <-]. Qed.

Lemma Grows_bind {A B} (m : Run St A) (k : A → Run St B) :
  Grows le m → (∀ a, Grows le (k a)) → Grows le (bind m k).
Proof.
  intros Hm Hk s b s' (a & s1 & H1 & H2)%bind_Returned.
  transitivity s1; [by eapply Hm | by eapply Hk].
Qed.

Lemma Grows_index {A} (l : list A) (i : nat) : Grows le (index l i).
Proof. by intros s a s' [_ ->]%index_Returned. Qed.

Lemma Grows_getitem {A} (d : gmap string A) (key : string) :
  Grows le (getitem d key).
Proof. by intros s a s' [_ ->]%getitem_Returned. Qed.

Lemma Grows_forEnum {A B} (body : nat → A → Run St B) (l : list A) :
  (∀ i x, Grows le (body i x)) → ∀ i, Grows le (forEnum body i l).
Proof.
  intros Hbody. induction l as [|x l IH]; intros i; simpl.
  - apply Grows_ret.
  - apply Grows_bind; [apply Hbody |]. intros y.
    apply Grows_bind; [apply IH |]. intros ys. apply Grows_ret.
Qed.

Lemma Grows_times {A} (body : A → Run St A) (n : nat) :
  (∀ a, Grows le (body a)) → ∀ a, Grows le (times n body a).
Proof.
  intros Hbody. induction n as [|n IH]; intros a; simpl.
  - apply Grows_ret.
  - apply Grows_bind; [apply Hbody | apply IH].
Qed.

Lemma Grows_forEach {A X} (body : A → X → Run St A) (l : list X) :
  (∀ a x, Grows le (body a x)) → ∀ a, Grows le (forEach body a l).
Proof.
  intros Hbody. induction l as [|x l IH]; intros a; simpl.
  - apply Grows_ret.
  - apply Grows_bind; [apply Hbody | apply IH].
Qed.

(** Each element was handled in a state between the one the loop began
    in and the one it ended in. *)
Lemma forEnum_Returned_between {A B} (body : nat → A → Run St B) (l : list A) :
  (∀ i x, Grows le (body i x)) →
  ∀ i s ys s',
    forEnum body i l s = Returned ys s' →
    length ys = length l
    ∧ ∀ k x y, l !! k = Some x → ys !! k = Some y →
        ∃ s1 s2, body (i + k) x s1 = Returned y s2 ∧ le s s1 ∧ le s2 s'.
Proof.
  intros Hbody. induction l as [|x l IH]; intros i s ys s'; simpl.
  - intros [= <- <-]. split; [done |]. intros k x y Hx. by destruct k.
  - intros (y & s1 & Hy & (ys' & s2 & Hys & [= <- <-])%bind_Returned)%bind_Returned.
    destruct (IH _ _ _ _ Hys) as [Hlen Hk].
    pose proof (Hbody _ _ _ _ _ Hy) as Hle1.
    pose proof (Grows_forEnum body l Hbody _ _ _ _ Hys) as Hle2.
    split; [simpl; by rewrite Hlen |].
    intros [|k] x' y'; simpl.
    + intros [= <-] [= <-]. exists s, s1. rewrite Nat.add_0_r.
      split; [done |]. split; [reflexivity | done].
    + intros Hx' Hy'. destruct (Hk _ _ _ Hx' Hy') as (s3 & s4 & Hb & H3 & H4).
      exists s3, s4. rewrite <- Nat.add_succ_comm.
      split; [done |]. split; [by transitivity s1 | done].
Qed.

End Growth.

Section CodesKept.

Context {L2 : Type} `{ColumnPooler L2}.

Lemma Grows_emit (e : Event) : Grows keeps_codes (emit e).
Proof. intros h u h' [= _ <-]. by apply keeps_codes_same. Qed.

Lemma Grows_gauss (mu sigma : Q) : Grows keeps_codes (gauss mu sigma).
Proof.
  intros h x h'. unfold gauss. destruct (normals h); [done |].
  intros [= _ <-]. by apply keeps_codes_same.
Qed.

Lemma Grows_draw {A} (g : Random.Gen A) : Grows keeps_codes (draw g).
Proof.
  intros h x h'. unfold draw. destruct (g (rnd h)); [| done | done].
  intros [= _ <-]. by apply keeps_codes_same.
Qed.

Lemma Grows_featureLocationSDR (c : nat) (name : FeatureLocation) :
  Grows keeps_codes (featureLocationSDR c name).
Proof. by intros h sdr h' (_ & ? & _)%featureLocationSDR_spec. Qed.

Lemma learnStep_body_Grows (name : FeatureLocation) (snap : list SDR)
    (i : nat) (l2 : L2) :
  Grows keeps_codes
    (let* feedforwardInput := featureLocationSDR i name in
     emit (EvCompute i feedforwardInput (lateralInputsOf i snap) true) ;;
     ret (compute l2 feedforwardInput (lateralInputsOf i snap) true)).
Proof.
  apply Grows_bind; [apply _ | apply Grows_featureLocationSDR |]. intros ff.
  apply Grows_bind; [apply _ | apply Grows_emit |]. intros _.
  apply Grows_ret; apply _.
Qed.

Lemma learnStep_Grows (name : FeatureLocation) (cols : list L2) :
  Grows keeps_codes (learnStep name cols).
Proof.
  unfold learnStep. apply Grows_forEnum; [apply _ |].
  intros i l2. apply learnStep_body_Grows.
Qed.

Lemma inferStep_body_Grows (fls : list FeatureLocation) (pos : list nat)
    (mu sigma : Q) (snap : list SDR) (i : nat) (l2 : L2) :
  Grows keeps_codes
    (let* noiseLevel := gauss mu sigma in
     let noiseLevel := Qmax 0 (Qmin 1 noiseLevel) in
     emit (EvGauss noiseLevel) ;;
     let* position := index pos i in
     let* featureLocationName := index fls position in
     let* feedforwardInput := featureLocationSDR i featureLocationName in
     let* feedforwardInput := draw (noisy feedforwardInput noiseLevel L4_CELL_COUNT) in
     let lateralInputs := lateralInputsOf i snap in
     emit (EvCompute i feedforwardInput lateralInputs false) ;;
     ret (compute l2 feedforwardInput lateralInputs false)).
Proof.
  apply Grows_bind; [apply _ | apply Grows_gauss |]. intros nl.
  apply Grows_bind; [apply _ | apply Grows_emit |]. intros _.
  apply Grows_bind; [apply _ | apply Grows_index; apply _ |]. intros p.
  apply Grows_bind; [apply _ | apply Grows_index; apply _ |]. intros name.
  apply Grows_bind; [apply _ | apply Grows_featureLocationSDR |]. intros ff.
  apply Grows_bind; [apply _ | apply Grows_draw |]. intros ff'.
  apply Grows_bind; [apply _ | apply Grows_emit |]. intros _.
  apply Grows_ret; apply _.
Qed.

Lemma inferStep_Grows (fls : list FeatureLocation) (pos : list nat)
    (mu sigma : Q) (cols : list L2) :
  Grows keeps_codes (inferStep fls pos mu sigma cols).
Proof.
  unfold inferStep. apply Grows_forEnum; [apply _ |].
  intros i l2. apply inferStep_body_Grows.
Qed.

Lemma learnObject_Grows (st : list L2 * gmap string (list SDR))
    (object : string * list FeatureLocation) :
  Grows keeps_codes (learnObject st object).
Proof.
  destruct st as [cols reps], object as [name fls]. unfold learnObject.
  apply Grows_bind; [apply _ | | intros; apply Grows_ret; apply _].
  apply Grows_forEach; [apply _ |]. intros cols' fl.
  unfold learnFeatureLocation. apply Grows_times; [apply _ |].
  intros a. apply learnStep_Grows.
Qed.

Lemma recordResults_Grows (reps : gmap string (list SDR)) (name : string)
    (cols : list L2) (results : list (nat * nat)) :
  Grows keeps_codes (recordResults reps name cols results).
Proof.
  unfold recordResults.
  apply Grows_bind; [apply _ | | intros; apply Grows_ret; apply _].
  apply Grows_forEnum; [apply _ |]. intros i l2.
  apply Grows_bind; [apply _ | apply Grows_getitem; apply _ |]. intros c.
  apply Grows_bind; [apply _ | apply Grows_index; apply _ |]. intros cc.
  apply Grows_ret; apply _.
Qed.

Lemma inferTouch_Grows (fls : list FeatureLocation) (it : nat → list nat)
    (mu sigma : Q) (nInit : Z) (reps : gmap string (list SDR)) (name : string)
    (st : list L2 * list (nat * nat)) (touch : Z) :
  Grows keeps_codes (inferTouch fls it mu sigma nInit reps name st touch).
Proof.
  destruct st as [cols results]. unfold inferTouch.
  apply Grows_bind; [apply _ | |].
  - apply Grows_times; [apply _ |]. intros a. apply inferStep_Grows.
  - intros cols'. destruct (nInit <=? touch).
    + apply Grows_bind; [apply _ | apply recordResults_Grows |].
      intros. apply Grows_ret; apply _.
    + apply Grows_ret; apply _.
Qed.

Lemma inferObject_Grows (placement : SensorPlacement) (numColumns : nat)
    (reps : gmap string (list SDR)) (mu sigma : Q) (nTrav : Z)
    (st : list L2 * list (nat * nat))
    (object : string * list FeatureLocation) :
  Grows keeps_codes (inferObject placement numColumns reps mu sigma nTrav st object).
Proof.
  destruct st as [cols results], object as [name fls]. unfold inferObject.
  case_decide; [done |].
  apply Grows_forEach; [apply _ |]. intros st touch. apply inferTouch_Grows.
Qed.

End CodesKept.

(** X5: the SDR that [featureLocationSDRs[columnNumber][name]] returns is
    the one the codebook holds afterwards: asking again returns the same
    SDR and changes nothing, and no SDR stored before is changed. *)
Theorem codebook_lookup_is_stable (columnNumber : nat)
    (name : FeatureLocation) (h h' : Heap) (sdr : SDR) :
  featureLocationSDR columnNumber name h = Returned sdr h' →
  code h' columnNumber name = Some sdr
  ∧ featureLocationSDR columnNumber name h' = Returned sdr h'
  ∧ (∀ c name' sdr', code h c name' = Some sdr' → code h' c name' = Some sdr').
Proof.
  intros (Hc & [_ Hkeep] & _)%featureLocationSDR_spec.
  split; [done |]. split; [| done].
  unfold code in Hc. unfold featureLocationSDR.
  destruct (featureLocationSDRs h' !! columnNumber) as [d|]; [| done].
  simpl in Hc. by rewrite Hc.
Qed.

Lemma codebook_lookup_is_stable_witness :
  ∃ sdr h',
    featureLocationSDR 0 Demo.featureA Cases.unseen = Returned sdr h'
    ∧ code h' 0 Demo.featureA = Some sdr
    ∧ featureLocationSDR 0 Demo.featureA h' = Returned sdr h'
    ∧ (∀ c name' sdr',
         code Cases.unseen c name' = Some sdr' → code h' c name' = Some sdr').
Proof.
  eexists _, _. split; [vm_compute; reflexivity |].
  eapply (codebook_lookup_is_stable 0 Demo.featureA Cases.unseen).
  vm_compute. reflexivity.
Defined.

(** X6: learning an object and inferring an object neither add or drop
    a codebook nor change an SDR a codebook already holds. *)
Theorem codes_survive_learning_and_inference {L2 : Type} `{ColumnPooler L2}
    (placement : SensorPlacement) :
  (∀ (st st' : list L2 * gmap string (list SDR))
     (object : string * list FeatureLocation) (h h' : Heap),
     learnObject st object h = Returned st' h' → keeps_codes h h')
  ∧ (∀ (numColumns : nat) (reps : gmap string (list SDR)) (mu sigma : Q)
       (nTrav : Z) (st st' : list L2 * list (nat * nat))
       (object : string * list FeatureLocation) (h h' : Heap),
       inferObject placement numColumns reps mu sigma nTrav st object h
       = Returned st' h' →
       keeps_codes h h').
Proof.
  split.
  - intros st st' object h h'. apply learnObject_Grows.
  - intros nc reps mu sigma nTrav st st' object h h'. apply inferObject_Grows.
Qed.

Lemma codes_survive_learning_and_inference_witness :
  (∃ st' h',
     learnObject (L2 := SDR) (Demo.cols1, ∅) Cases.object1 Cases.unseen
     = Returned st' h'
     ∧ keeps_codes Cases.unseen h')
  ∧ (∃ st' h',
       inferObject (L2 := SDR) Echo.placement 1 Demo.learned (1 # 2) 0 0
         (Demo.cols1, []) Cases.object1 Demo.oneColumn
       = Returned st' h'
       ∧ keeps_codes Demo.oneColumn h').
Proof.
  split.
  - eexists _, _. split; [vm_compute; reflexivity |].
    eapply (proj1 (codes_survive_learning_and_inference (L2 := SDR)
                     Echo.placement) (Demo.cols1, ∅) _ Cases.object1
              Cases.unseen).
    vm_compute. reflexivity.
  - eexists _, _. split; [vm_compute; reflexivity |].
    eapply (proj2 (codes_survive_learning_and_inference (L2 := SDR)
                     Echo.placement) 1%nat Demo.learned (1 # 2) 0%Q 0
              (Demo.cols1, []) _ Cases.object1 Demo.oneColumn).
    vm_compute. reflexivity.
Defined.

(** ** What a pass does to each column *)

Lemma clamp_range (x : Q) :
  (0 <= Qmax 0 (Qmin 1 x))%Q ∧ (Qmax 0 (Qmin 1 x) <= 1)%Q.
Proof.
  split.
  - apply Q.le_max_l.
  - apply Q.max_lub; [done |]. apply Q.le_min_l.
Qed.

Lemma clamp_zero (z : Q) : Qnum (Qmax 0 (Qmin 1 (0 + z * 0))) = 0.
Proof.
  assert (Hx : (0 + z * 0 == 0)%Q) by ring.
  assert (Hc : (Qmax 0 (Qmin 1 (0 + z * 0)) == 0)%Q).
  { rewrite Hx. rewrite Q.min_r by done. by rewrite Q.max_l. }
  unfold Qeq in Hc. simpl in Hc. lia.
Qed.

Lemma noisy_level_zero (pattern : SDR) (noiseLevel : Q) (U : Z) t :
  Qnum noiseLevel = 0 → noisy pattern noiseLevel U t = Returned pattern t.
Proof.
  intros Hq. unfold noisy. rewrite py_int_num_zero by done.
  apply noisy_n_zero.
Qed.

Lemma noisy_size (pattern : SDR) (noiseLevel : Q) (U : Z) t out t' :
  noisy pattern noiseLevel U t = Returned out t' → size out = size pattern.
Proof. unfold noisy. by intros (_ & _ & _ & ?)%noisy_n_Returned. Qed.

Section StepUpdates.

Context {L2 : Type} `{ColumnPooler L2}.

Local Open Scope nat_scope.

(** X7: a learning pass keeps the number of columns and leaves column
    [i] as [compute] of its stored SDR of the feature-location, with the
    active cells the other columns had at the start of the pass, in
    order, as lateral inputs and [learn=True]. *)
Theorem learnStep_updates_each_column (name : FeatureLocation)
    (cols cols' : list L2) (h h' : Heap) :
  learnStep name cols h = Returned cols' h' →
  length cols' = length cols
  ∧ ∀ i l2, cols !! i = Some l2 →
      ∃ ff, code h' i name = Some ff
            ∧ cols' !! i
              = Some (compute l2 ff (getActiveCells <$> delete i cols) true).
Proof.
  unfold learnStep. intros Hrun.
  eapply (forEnum_Returned_between keeps_codes) in Hrun
    as [Hlen Hk]; [| intros; apply learnStep_body_Grows].
  split; [done |]. intros i l2 Hl2.
  destruct (lookup_lt_is_Some_2 cols' i) as [y Hy].
  { rewrite Hlen. by eapply lookup_lt_Some. }
  destruct (Hk i l2 y Hl2 Hy) as (s1 & s2 & Hbody & _ & [_ Hkeep]).
  apply bind_Returned in Hbody as (ff & h1 & Hff & Hbody).
  apply bind_Returned in Hbody as (u & h2 & Hemit & [= <- <-]).
  apply featureLocationSDR_spec in Hff as (Hcode & _).
  apply Grows_emit in Hemit as [_ Hemit].
  rewrite Nat.add_0_l in *.
  exists ff. split.
  - by apply Hkeep, Hemit.
  - by rewrite Hy, lateralInputsOf_delete, list_fmap_delete.
Qed.

(** X8: an inference pass keeps the number of columns; column [i] looks
    at the feature-location at its sensor's position and is left as
    [compute] of a noisy copy of the stored SDR, of the same size and
    with its new cells in [0 .. L4_CELL_COUNT - 1], with the active
    cells the other columns had at the start of the pass as lateral
    inputs and [learn=False]. *)
Theorem inferStep_updates_each_column (featureLocations : list FeatureLocation)
    (sensorPositions : list nat) (noiseMu noiseSigma : Q)
    (cols cols' : list L2) (h h' : Heap) :
  inferStep featureLocations sensorPositions noiseMu noiseSigma cols h
  = Returned cols' h' →
  length cols' = length cols
  ∧ ∀ i l2, cols !! i = Some l2 →
      ∃ position name ff ff',
        sensorPositions !! i = Some position
        ∧ featureLocations !! position = Some name
        ∧ code h' i name = Some ff
        ∧ size ff' = size ff
        ∧ (∀ v, v ∈ ff' → v ∈ ff ∨ (0 ≤ v < L4_CELL_COUNT)%Z)
        ∧ cols' !! i
          = Some (compute l2 ff' (getActiveCells <$> delete i cols) false).
Proof.
  unfold inferStep. intros Hrun.
  eapply (forEnum_Returned_between keeps_codes) in Hrun
    as [Hlen Hk]; [| intros; apply inferStep_body_Grows].
  split; [done |]. intros i l2 Hl2.
  destruct (lookup_lt_is_Some_2 cols' i) as [y Hy].
  { rewrite Hlen. by eapply lookup_lt_Some. }
  destruct (Hk i l2 y Hl2 Hy) as (s1 & s2 & Hbody & _ & [_ Hkeep]).
  apply bind_Returned in Hbody as (nl & h1 & Hg & Hbody).
  apply bind_Returned in Hbody as (u & h2 & Hemit1 & Hbody).
  apply bind_Returned in Hbody as (p & h3 & [Hp ->]%index_Returned & Hbody).
  apply bind_Returned in Hbody as (nm & h4 & [Hnm ->]%index_Returned & Hbody).
  apply bind_Returned in Hbody as (ff & h5 & Hff & Hbody).
  apply bind_Returned in Hbody as (ff' & h6 & Hnoisy & Hbody).
  apply bind_Returned in Hbody as (u' & h7 & Hemit2 & [= <- <-]).
  apply featureLocationSDR_spec in Hff as (Hcode & _).
  pose proof (Grows_draw _ _ _ _ Hnoisy) as [_ Hkeep1].
  apply Grows_emit in Hemit2 as [_ Hkeep2].
  unfold draw in Hnoisy.
  destruct (noisy ff _ _ (rnd _)) as [out t'| |] eqn:Hn; [| done | done].
  injection Hnoisy as <- _.
  rewrite Nat.add_0_l in *.
  exists p, nm, ff, out. split_and!; try done.
  - by apply Hkeep, Hkeep2, Hkeep1.
  - by eapply noisy_size.
  - by eapply noisy_new_cells.
  - by rewrite Hy, lateralInputsOf_delete, list_fmap_delete.
Qed.

(** X9: with [noiseMu = 0] and [noiseSigma = 0] an inference pass feeds
    every column the stored SDR itself. *)
Theorem inferStep_without_noise (featureLocations : list FeatureLocation)
    (sensorPositions : list nat) (cols cols' : list L2) (h h' : Heap) :
  inferStep featureLocations sensorPositions 0 0 cols h = Returned cols' h' →
  ∀ i l2, cols !! i = Some l2 →
    ∃ position name ff,
      sensorPositions !! i = Some position
      ∧ featureLocations !! position = Some name
      ∧ code h' i name = Some ff
      ∧ cols' !! i
        = Some (compute l2 ff (getActiveCells <$> delete i cols) false).
Proof.
  unfold inferStep. intros Hrun.
  eapply (forEnum_Returned_between keeps_codes) in Hrun
    as [Hlen Hk]; [| intros; apply inferStep_body_Grows].
  intros i l2 Hl2.
  destruct (lookup_lt_is_Some_2 cols' i) as [y Hy].
  { rewrite Hlen. by eapply lookup_lt_Some. }
  destruct (Hk i l2 y Hl2 Hy) as (s1 & s2 & Hbody & _ & [_ Hkeep]).
  apply bind_Returned in Hbody as (nl & h1 & Hg & Hbody).
  apply bind_Returned in Hbody as (u & h2 & Hemit1 & Hbody).
  apply bind_Returned in Hbody as (p & h3 & [Hp ->]%index_Returned & Hbody).
  apply bind_Returned in Hbody as (nm & h4 & [Hnm ->]%index_Returned & Hbody).
  apply bind_Returned in Hbody as (ff & h5 & Hff & Hbody).
  apply bind_Returned in Hbody as (ff' & h6 & Hnoisy & Hbody).
  apply bind_Returned in Hbody as (u' & h7 & Hemit2 & [= <- <-]).
  apply featureLocationSDR_spec in Hff as (Hcode & _).
  pose proof (Grows_draw _ _ _ _ Hnoisy) as [_ Hkeep1].
  apply Grows_emit in Hemit2 as [_ Hkeep2].
  assert (Hnl : ∃ z, nl = (0 + z * 0)%Q).
  { unfold gauss in Hg. destruct (normals s1) as [|z zs]; [done |].
    injection Hg as <- _. by exists z. }
  destruct Hnl as [z ->].
  unfold draw in Hnoisy. rewrite noisy_level_zero in Hnoisy by apply clamp_zero.
  injection Hnoisy as <- _.
  rewrite Nat.add_0_l in *.
  exists p, nm, ff. split_and!; try done.
  - by apply Hkeep, Hkeep2, Hkeep1.
  - by rewrite Hy, lateralInputsOf_delete, list_fmap_delete.
Qed.

Lemma Forall_omap_concat {B} (p : Event → option B) (P : B → Prop)
    (evss : list (list Event)) :
  (∀ k evs, evss !! k = Some evs → Forall P (omap p evs)) →
  Forall P (omap p (concat evss)).
Proof.
  induction evss as [|evs evss IH]; intros Hev; [constructor |].
  simpl. rewrite omap_app. apply Forall_app. split.
  - by apply (Hev 0 evs).
  - apply IH. intros k evs' Hk. by apply (Hev (S k)).
Qed.

(** X10: every noise level an inference pass hands to [noisy] is in
    [0, 1], whatever [noiseMu], [noiseSigma] and the generator give. *)
Theorem noise_levels_are_clamped (featureLocations : list FeatureLocation)
    (sensorPositions : list nat) (noiseMu noiseSigma : Q)
    (cols cols' : list L2) (h h' : Heap) :
  inferStep featureLocations sensorPositions noiseMu noiseSigma cols h
  = Returned cols' h' →
  Forall (λ q, (0 <= q)%Q ∧ (q <= 1)%Q)
    (noiseLevels (drop (length (trace h)) (trace h'))).
Proof.
  unfold inferStep. intros Hrun.
  eapply (forEnum_trace _
            (λ i evs, Forall (λ q, (0 <= q)%Q ∧ (q <= 1)%Q) (noiseLevels evs)))
    in Hrun.
  - destruct Hrun as (evss & -> & _ & HE). rewrite drop_app_length.
    apply Forall_omap_concat. intros k evs Hk. by apply (HE k).
  - intros i l2 h0 y h1.
    intros (nl & h2 & Hg & Hrest)%bind_Returned.
    apply bind_Returned in Hrest as (u & h3 & Hemit1 & Hrest).
    apply bind_Returned in Hrest as (pos & h4 & [_ ->]%index_Returned & Hrest).
    apply bind_Returned in Hrest as (name & h5 & [_ ->]%index_Returned & Hrest).
    apply bind_Returned in Hrest as (ff & h6 & Hff & Hrest).
    apply bind_Returned in Hrest as (ff' & h7 & Hnoisy & Hrest).
    apply bind_Returned in Hrest as (u' & h8 & Hemit2 & [= <- <-]).
    apply gauss_Returned in Hg. apply emit_Returned in Hemit1.
    apply featureLocationSDR_Returned in Hff.
    apply draw_Returned in Hnoisy. apply emit_Returned in Hemit2.
    eexists. split.
    + rewrite Hemit2, Hnoisy, Hff, Hemit1, Hg, <- app_assoc. done.
    + simpl. constructor; [apply clamp_range | constructor].
Qed.

End StepUpdates.

Lemma learnStep_updates_each_column_witness :
  ∃ cols' h',
    learnStep (L2 := SDR) Demo.featureA Demo.cols2 Demo.twoColumns
    = Returned cols' h'
    ∧ length cols' = length Demo.cols2
    ∧ ∀ i l2, Demo.cols2 !! i = Some l2 →
        ∃ ff, code h' i Demo.featureA = Some ff
              ∧ cols' !! i
                = Some (compute l2 ff
                          (getActiveCells <$> delete i Demo.cols2) true).
Proof.
  eexists _, _. split; [vm_compute; reflexivity |].
  eapply (learnStep_updates_each_column Demo.featureA Demo.cols2 _
            Demo.twoColumns).
  vm_compute. reflexivity.
Defined.

Lemma inferStep_updates_each_column_witness :
  ∃ cols' h',
    inferStep (L2 := SDR) [Demo.featureA] [0; 0]%nat (1 # 2) 0 Demo.cols2
      Demo.twoColumns
    = Returned cols' h'
    ∧ length cols' = length Demo.cols2
    ∧ ∀ i l2, Demo.cols2 !! i = Some l2 →
        ∃ position name ff ff',
          [0; 0]%nat !! i = Some position
          ∧ [Demo.featureA] !! position = Some name
          ∧ code h' i name = Some ff
          ∧ size ff' = size ff
          ∧ (∀ v, v ∈ ff' → v ∈ ff ∨ (0 ≤ v < L4_CELL_COUNT)%Z)
          ∧ cols' !! i
            = Some (compute l2 ff'
                      (getActiveCells <$> delete i Demo.cols2) false).
Proof.
  eexists _, _. split; [vm_compute; reflexivity |].
  eapply (inferStep_updates_each_column [Demo.featureA] [0; 0]%nat (1 # 2)
            0%Q Demo.cols2 _ Demo.twoColumns).
  vm_compute. reflexivity.
Defined.

Lemma inferStep_without_noise_witness :
  ∃ cols' h',
    inferStep (L2 := SDR) [Demo.featureA] [0; 0]%nat 0 0 Demo.cols2
      Demo.twoColumns
    = Returned cols' h'
    ∧ ∀ i l2, Demo.cols2 !! i = Some l2 →
        ∃ position name ff,
          [0; 0]%nat !! i = Some position
          ∧ [Demo.featureA] !! position = Some name
          ∧ code h' i name = Some ff
          ∧ cols' !! i
            = Some (compute l2 ff
                      (getActiveCells <$> delete i Demo.cols2) false).
Proof.
  eexists _, _. split; [vm_compute; reflexivity |].
  eapply (inferStep_without_noise [Demo.featureA] [0; 0]%nat Demo.cols2 _
            Demo.twoColumns).
  vm_compute. reflexivity.
Defined.

Lemma noise_levels_are_clamped_witness :
  ∃ cols' h',
    inferStep (L2 := SDR) [Demo.featureA] [0; 0]%nat (1 # 2) 0 Demo.cols2
      Demo.twoColumns
    = Returned cols' h'
    ∧ Forall (λ q, (0 <= q)%Q ∧ (q <= 1)%Q)
        (noiseLevels (drop (length (trace Demo.twoColumns)) (trace h'))).
Proof.
  eexists _, _. split; [vm_compute; reflexivity |].
  eapply (noise_levels_are_clamped [Demo.featureA] [0; 0]%nat (1 # 2) 0%Q
            Demo.cols2 _ Demo.twoColumns).
  vm_compute. reflexivity.
Defined.

(** ** Where a loop raises *)

Section Raising.

Context {St : Type} (le : St → St → Prop) `{!PreOrder le}.

Local Open Scope nat_scope.


Lemma times_Returned_inv {A} (Inv : A → Prop) (body : A → Run St A) :
  (∀ a s a' s', Inv a → body a s = Returned a' s' → Inv a') →
  ∀ n a s a' s', Inv a → times n body a s = Returned a' s' → Inv a'.
Proof.
  intros Hinv. induction n as [|n IH]; intros a s a' s' Ha; simpl.
  - by intros [= <- <-].
  - intros (b & s1 & Hb & Hn)%bind_Returned. eapply IH; [| done]. by eapply Hinv.
Qed.


Lemma forEach_Returned_inv {A X} (Inv : A → Prop) (body : A → X → Run St A)
    (l : list X) :
  (∀ a x s a' s', x ∈ l → Inv a → body a x s = Returned a' s' → Inv a') →
  ∀ a s a' s', Inv a → forEach body a l s = Returned a' s' → Inv a'.
Proof.
  induction l as [|x l IH]; intros Hinv a s a' s' Ha; simpl.
  - by intros [= <- <-].
  - intros (b & s1 & Hb & Hn)%bind_Returned.
    eapply IH; [| | done].
    + intros a0 x0 s0 a0' s0' Hx0. apply Hinv. by right.
    + eapply Hinv; [by left | done | done].
Qed.


End Raising.

(** ** Where the experiment raises *)





Section Causes.

Context {L2 : Type} `{ColumnPooler L2}.

Local Open Scope nat_scope.




Lemma learnStep_length (name : FeatureLocation) (cols cols' : list L2)
    (h h' : Heap) :
  learnStep name cols h = Returned cols' h' → length cols' = length cols.
Proof. unfold learnStep. by intros [? _]%forEnum_Returned. Qed.

Lemma inferStep_length (fls : list FeatureLocation) (pos : list nat)
    (mu sigma : Q) (cols cols' : list L2) (h h' : Heap) :
  inferStep fls pos mu sigma cols h = Returned cols' h' →
  length cols' = length cols.
Proof. unfold inferStep. by intros [? _]%forEnum_Returned. Qed.

End Causes.

(** ** Touch counts *)

Lemma Qceiling_div (a b : Z) :
  0 < b → Qceiling (inject_Z a / inject_Z b) = (a + b - 1) / b.
Proof.
  intros Hb. destruct b as [|b|b]; try lia.
  unfold Qceiling, Qfloor, Qdiv, Qinv, Qmult, Qopp, inject_Z. simpl.
  rewrite Z.mul_1_r. change (1 * b)%positive with b.
  apply Z.div_unique with (r := Z.pos b - 1 - (- a) `mod` Z.pos b).
  - pose proof (Z.mod_pos_bound (- a) (Z.pos b)). lia.
  - pose proof (Z.div_mod (- a) (Z.pos b)). lia.
Qed.

Lemma touches_div (x : Z) (len nc : nat) :
  (0 < nc)%nat →
  Qceiling (inject_Z x * (inject_Z (Z.of_nat len) / inject_Z (Z.of_nat nc)))
  = (x * Z.of_nat len + Z.of_nat nc - 1) / Z.of_nat nc.
Proof.
  intros Hnc. rewrite <- Qceiling_div by lia.
  apply Qceiling_comp. rewrite inject_Z_mult. unfold Qdiv. ring.
Qed.

Lemma testTouches_div (len nc : nat) :
  (0 < nc)%nat →
  Qceiling (1 * (inject_Z (Z.of_nat len) / inject_Z (Z.of_nat nc)))
  = (Z.of_nat len + Z.of_nat nc - 1) / Z.of_nat nc.
Proof.
  intros Hnc. rewrite <- Qceiling_div by lia.
  apply Qceiling_comp. ring.
Qed.

Lemma filter_none {A} (P : A → Prop) `{!∀ x, Decision (P x)} (l : list A) :
  Forall (λ x, ¬ P x) l → filter P l = [].
Proof.
  induction 1 as [|x l Hx _ IH]; [done |]. by rewrite filter_cons_False.
Qed.

Lemma filter_all {A} (P : A → Prop) `{!∀ x, Decision (P x)} (l : list A) :
  Forall P l → filter P l = l.
Proof.
  induction 1 as [|x l Hx _ IH]; [done |]. by rewrite filter_cons_True, IH.
Qed.

Lemma recorded_touches (a b : Z) :
  0 ≤ a → 0 ≤ b →
  length (filter (λ t, a ≤ t) (seqZ 0 (a + b))) = Z.to_nat b.
Proof.
  intros Ha Hb. rewrite seqZ_app by lia. rewrite filter_app, length_app.
  rewrite filter_none, filter_all.
  - simpl. apply length_seqZ.
  - apply Forall_forall. intros t Ht%elem_of_seqZ. lia.
  - apply Forall_forall. intros t Ht%elem_of_seqZ. lia.
Qed.

(** ** Objects *)

Section Objects.

Context {L2 : Type} `{ColumnPooler L2}.
Variable placement : SensorPlacement.

Local Open Scope nat_scope.

Lemma learnFeatureLocation_length (cols cols' : list L2)
    (name : FeatureLocation) (h h' : Heap) :
  learnFeatureLocation cols name h = Returned cols' h' →
  length cols' = length cols.
Proof.
  unfold learnFeatureLocation.
  apply (times_Returned_inv (λ c, length c = length cols)); [| done].
  intros a s a' s' Ha Hstep. by rewrite (learnStep_length _ _ _ _ _ Hstep).
Qed.



Lemma learnObject_Returned (cols cols' : list L2)
    (reps reps' : gmap string (list SDR)) (name : string)
    (fls : list FeatureLocation) (h h' : Heap) :
  learnObject (cols, reps) (name, fls) h = Returned (cols', reps') h' →
  length cols' = length cols
  ∧ ∃ l, length l = length cols ∧ reps' = <[name := l]> reps.
Proof.
  unfold learnObject.
  intros (colsF & hF & Hloop & [= <- <- <-])%bind_Returned.
  assert (Hlen : length colsF = length cols).
  { revert Hloop.
    apply (forEach_Returned_inv (λ c, length c = length cols)); [| done].
    intros a x s a' s' _ Ha Hfl.
    by rewrite (learnFeatureLocation_length _ _ _ _ _ Hfl). }
  split; [by rewrite length_fmap |].
  exists (getActiveCells <$> colsF). by rewrite length_fmap.
Qed.


Lemma learnObject_learnt (n : nat) (names : string → Prop)
    (st st' : list L2 * gmap string (list SDR))
    (object : string * list FeatureLocation) (h h' : Heap) :
  learnt n names st → learnObject st object h = Returned st' h' →
  learnt n (λ name, names name ∨ name = object.1) st'.
Proof.
  destruct st as [cols reps], st' as [cols' reps'], object as [name fls].
  intros [Hn Hnames] (Hlen & l & Hl & ->)%learnObject_Returned.
  simpl in *. split; [simpl; lia |]. simpl.
  intros name' Hname'. destruct (decide (name' = name)) as [-> | Hne].
  - exists l. rewrite lookup_insert_eq. split; [done | lia].
  - rewrite lookup_insert_ne by done. apply Hnames.
    by destruct Hname' as [? | ?].
Qed.

Lemma learning_learnt (objs : list (string * list FeatureLocation)) :
  ∀ (n : nat) (names : string → Prop)
    (st st' : list L2 * gmap string (list SDR)) (h h' : Heap),
    learnt n names st →
    forEach learnObject st objs h = Returned st' h' →
    learnt n (λ name, names name ∨ ∃ o, o ∈ objs ∧ name = o.1) st'.
Proof.
  induction objs as [|o objs IH]; intros n names st st' h h' Hst; simpl.
  - intros [= <- <-]. destruct Hst as [Hn Hnames]. split; [done |].
    intros name [? | (o & Ho & _)]; [by apply Hnames |]. by apply elem_of_nil in Ho.
  - intros (st1 & h1 & Ho & Hrest)%bind_Returned.
    pose proof (learnObject_learnt _ _ _ _ _ _ _ Hst Ho) as Hst1.
    destruct (IH _ _ _ _ _ _ Hst1 Hrest) as [Hn Hnames]. split; [done |].
    intros name [Hname | (o' & [-> | Ho']%elem_of_cons & ->)].
    + apply Hnames. left. by left.
    + apply Hnames. left. by right.
    + apply Hnames. right. by exists o'.
Qed.


End Objects.

(** ** Inference *)

Section Inference.

Context {L2 : Type} `{ColumnPooler L2}.
Variable placement : SensorPlacement.

Local Open Scope nat_scope.

Lemma settle_length (fls : list FeatureLocation) (pos : list nat)
    (mu sigma : Q) (n : nat) (cols cols' : list L2) (h h' : Heap) :
  times n (inferStep fls pos mu sigma) cols h = Returned cols' h' →
  length cols' = length cols.
Proof.
  apply (times_Returned_inv (λ c, length c = length cols)); [| done].
  intros a s a' s' Ha Hstep. by rewrite (inferStep_length _ _ _ _ _ _ _ _ Hstep).
Qed.

Lemma recordResults_length (reps : gmap string (list SDR)) (name : string)
    (cols : list L2) (results results' : list (nat * nat)) (h h' : Heap) :
  recordResults reps name cols results h = Returned results' h' →
  length results' = length results + length cols.
Proof.
  unfold recordResults.
  intros (new & h1 & [Hnew _]%forEnum_Returned & [= <- _])%bind_Returned.
  rewrite length_app. lia.
Qed.

Lemma inferTouch_Returned (fls : list FeatureLocation) (it : nat → list nat)
    (mu sigma : Q) (nInit : Z) (reps : gmap string (list SDR)) (name : string)
    (cols cols' : list L2) (results results' : list (nat * nat)) (touch : Z)
    (h h' : Heap) :
  inferTouch fls it mu sigma nInit reps name (cols, results) touch h
  = Returned (cols', results') h' →
  length cols' = length cols
  ∧ length results'
    = length results + (if decide (nInit ≤ touch)%Z then length cols else 0).
Proof.
  unfold inferTouch.
  intros (colsS & h1 & Hlen%settle_length & Hrec)%bind_Returned.
  destruct (nInit <=? touch)%Z eqn:Ht.
  - apply Z.leb_le in Ht. rewrite decide_True by done.
    apply bind_Returned in Hrec as (res & h2 & Hres%recordResults_length & [= <- <- _]).
    split; [done | lia].
  - apply Z.leb_gt in Ht. rewrite decide_False by lia.
    injection Hrec as <- <- _. split; [done | lia].
Qed.


(** The touches of one object. *)
Lemma touches_Returned (fls : list FeatureLocation) (it : nat → list nat)
    (mu sigma : Q) (nInit : Z) (reps : gmap string (list SDR)) (name : string)
    (touches : list Z) :
  ∀ (cols cols' : list L2) (results results' : list (nat * nat)) (h h' : Heap),
    forEach (inferTouch fls it mu sigma nInit reps name) (cols, results)
      touches h
    = Returned (cols', results') h' →
    length cols' = length cols
    ∧ length results'
      = length results
        + length cols * length (filter (λ t, (nInit ≤ t)%Z) touches).
Proof.
  induction touches as [|t touches IH]; intros cols cols' results results' h h';
    simpl.
  - intros [= <- <- _]. split; [done | lia].
  - intros ([c1 r1] & h1 & [Hc1 Hr1]%inferTouch_Returned & Hrest)%bind_Returned.
    destruct (IH _ _ _ _ _ _ Hrest) as [Hc Hr]. split; [lia |].
    rewrite filter_cons. rewrite Hr, Hr1, Hc1.
    destruct (decide (nInit ≤ t)%Z); simpl; lia.
Qed.


Lemma inferObject_Returned (nc : nat) (reps : gmap string (list SDR))
    (mu sigma : Q) (nTrav : Z) (cols cols' : list L2)
    (results results' : list (nat * nat)) (name : string)
    (fls : list FeatureLocation) (h h' : Heap) :
  inferObject placement nc reps mu sigma nTrav (cols, results) (name, fls) h
  = Returned (cols', results') h' →
  (0 < nc)
  ∧ length cols' = length cols
  ∧ ((0 ≤ nTrav)%Z →
     length results'
     = length results
       + length cols
         * Z.to_nat ((Z.of_nat (length fls) + Z.of_nat nc - 1) / Z.of_nat nc)).
Proof.
  unfold inferObject. case_decide as Hnc; [done |].
  intros [Hc Hr]%touches_Returned. rewrite length_fmap in Hc, Hr.
  split; [lia |]. split; [done |]. intros HnTrav.
  rewrite Hr. f_equal. f_equal.
  rewrite touches_div, testTouches_div by lia.
  apply recorded_touches.
  - apply Z.div_pos; lia.
  - apply Z.div_pos; lia.
Qed.


End Inference.

(** ** The experiment as a whole *)

Section Whole.

Context {L2 : Type} `{ColumnPooler L2}.
Variable placement : SensorPlacement.

Local Open Scope nat_scope.


Lemma inference_Returned (nc : nat) (reps : gmap string (list SDR))
    (mu sigma : Q) (nTrav : Z) (objs : list (string * list FeatureLocation)) :
  ∀ (cols cols' : list L2) (results results' : list (nat * nat)) (h h' : Heap),
    forEach (inferObject placement nc reps mu sigma nTrav) (cols, results)
      objs h
    = Returned (cols', results') h' →
    length cols' = length cols
    ∧ ((0 ≤ nTrav)%Z →
       length results'
       = length results
         + sum_list_with (λ o, length cols * testTouches nc (length o.2)) objs).
Proof.
  induction objs as [|[name fls] objs IH];
    intros cols cols' results results' h h'; simpl.
  - intros [= <- <- _]. split; [done | lia].
  - intros ([c1 r1] & h1 & (_ & Hc1 & Hr1)%inferObject_Returned & Hrest)%bind_Returned.
    destruct (IH _ _ _ _ _ _ Hrest) as [Hc Hr]. split; [lia |].
    intros HnTrav. rewrite Hr, Hr1, Hc1 by done. unfold testTouches. lia.
Qed.

(** What a run that returns went through. *)
Lemma doExperiment_Returned (nc : nat) (ov : list (string * Z))
    (objs : list (string * list FeatureLocation)) (mu sigma : Q) (nTrav : Z)
    (h h' : Heap) (results : list (nat * nat)) :
  doExperiment placement nc ov objs mu sigma nTrav h = Returned results h' →
  ∃ r t (cols cols' : list L2) reps h2,
    rnd h = r :: t
    ∧ forEach learnObject
        (replicate nc (ColumnPooler_new ov nc (0 + r `mod` (1024 - 0 + 1))%Z), ∅)
        objs (mkHeap t (normals h) (replicate nc ∅) (trace h))
      = Returned (cols, reps) h2
    ∧ forEach (inferObject placement nc reps mu sigma nTrav) (cols, []) objs h2
      = Returned (cols', results) h'.
Proof.
  unfold doExperiment.
  intros (u & h0 & [= _ <-] & Hrest)%bind_Returned.
  apply bind_Returned in Hrest as (seed & h1 & Hseed & Hrest).
  unfold draw, Random.randint in Hseed. simpl in Hseed.
  destruct (rnd h) as [|r t] eqn:Hrnd; [done |].
  injection Hseed as <- <-.
  apply bind_Returned in Hrest as ([cols reps] & h2 & Hlearn & Hrest).
  apply bind_Returned in Hrest as ([cols' res] & h3 & Hinfer & [= <- <-]).
  by exists r, t, cols, cols', reps, h2.
Qed.


End Whole.

Section WholeTheorems.

Context {L2 : Type} `{ColumnPooler L2}.
Variable placement : SensorPlacement.

Local Open Scope nat_scope.

Lemma forEach_cons {St A X} (body : A → X → Run St A) (a : A) (x : X)
    (l : list X) (s : St) :
  forEach body a (x :: l) s
  = match body a x s with
    | Returned a' s' => forEach body a' l s'
    | Raised e => Raised e
    | Starved => Starved
    end.
Proof. reflexivity. Qed.

Lemma learnObject_without_columns (reps : gmap string (list SDR))
    (name : string) (fls : list FeatureLocation) (h : Heap) :
  learnObject (([] : list L2), reps) (name, fls) h
  = Returned ([], <[name := []]> reps) h.
Proof.
  assert (Hfls : forEach learnFeatureLocation ([] : list L2) fls h
                 = Returned [] h).
  { induction fls as [|fl fls IHf]; [done |]. rewrite forEach_cons.
    change (learnFeatureLocation [] fl h) with (Returned ([] : list L2) h).
    exact IHf. }
  unfold learnObject, bind. by rewrite Hfls.
Qed.

Lemma learning_without_columns (objs : list (string * list FeatureLocation)) :
  ∀ (reps : gmap string (list SDR)) (h : Heap),
    ∃ reps', forEach learnObject (([] : list L2), reps) objs h
             = Returned ([], reps') h.
Proof.
  induction objs as [|[name fls] objs IH]; intros reps h.
  - by exists reps.
  - rewrite forEach_cons, learnObject_without_columns. apply IH.
Qed.


Lemma doExperiment_seed (numColumns : nat) (l2Overrides : list (string * Z))
    (objectDescriptions : list (string * list FeatureLocation))
    (noiseMu noiseSigma : Q) (numInitialTraversals : Z) (h : Heap) :
  doExperiment placement numColumns l2Overrides objectDescriptions
    noiseMu noiseSigma numInitialTraversals h
  = match rnd h with
    | [] => Starved
    | r :: t =>
        (let* '(l2Columns, objectL2Representations) :=
           forEach learnObject
             (replicate numColumns
                (ColumnPooler_new l2Overrides numColumns (r `mod` 1025)%Z), ∅)
             objectDescriptions in
         let* '(_, results) :=
           forEach
             (inferObject placement numColumns objectL2Representations
                noiseMu noiseSigma numInitialTraversals)
             (l2Columns, []) objectDescriptions in
         ret results)
          (mkHeap t (normals h) (replicate numColumns ∅) (trace h))
    end.
Proof.
  unfold doExperiment. unfold bind at 1. cbn beta iota.
  unfold bind at 1. unfold draw, Random.randint. cbn [rnd normals trace featureLocationSDRs].
  change (1024 - 0 + 1 <=? 0)%Z with false. cbn iota.
  destruct (rnd h) as [|r t]; reflexivity.
Qed.

(** X12: the edge cases of [doExperiment].  With no draw left it waits
    for the seed; otherwise, without objects it returns no result, having
    used one draw and set up one empty codebook per column, and with
    objects but no column it raises [ZeroDivisionError]. *)
Theorem doExperiment_edge_cases (numColumns : nat)
    (l2Overrides : list (string * Z))
    (objectDescriptions : list (string * list FeatureLocation))
    (noiseMu noiseSigma : Q) (numInitialTraversals : Z) (h : Heap) :
  match rnd h with
  | [] =>
      doExperiment placement numColumns l2Overrides objectDescriptions
        noiseMu noiseSigma numInitialTraversals h = Starved
  | r :: t =>
      (objectDescriptions = [] →
       doExperiment placement numColumns l2Overrides objectDescriptions
         noiseMu noiseSigma numInitialTraversals h
       = Returned [] (mkHeap t (normals h) (replicate numColumns ∅) (trace h)))
      ∧ (objectDescriptions ≠ [] → numColumns = 0 →
         doExperiment placement numColumns l2Overrides objectDescriptions
           noiseMu noiseSigma numInitialTraversals h
         = Raised ZeroDivisionError)
  end.
Proof.
  rewrite doExperiment_seed.
  destruct (rnd h) as [|r t]; [done |]. split.
  - by intros ->.
  - intros Hobjs ->. unfold bind at 1. cbn [replicate].
    destruct (learning_without_columns objectDescriptions ∅
                (mkHeap t (normals h) [] (trace h))) as [reps' ->].
    destruct objectDescriptions as [|[name fls] objs]; [done |].
    unfold bind at 1. by rewrite forEach_cons.
Qed.

(** X13: for [numInitialTraversals >= 0] the results of [doExperiment]
    hold, for each object, one pair per column for each of its
    [ceil(len(featureLocations) / numColumns)] test touches. *)
Theorem doExperiment_result_count (numColumns : nat)
    (l2Overrides : list (string * Z))
    (objectDescriptions : list (string * list FeatureLocation))
    (noiseMu noiseSigma : Q) (numInitialTraversals : Z)
    (h h' : Heap) (results : list (nat * nat)) :
  doExperiment placement numColumns l2Overrides objectDescriptions
    noiseMu noiseSigma numInitialTraversals h = Returned results h' →
  (0 ≤ numInitialTraversals)%Z →
  length results
  = sum_list_with (λ o, numColumns * testTouches numColumns (length o.2))
      objectDescriptions.
Proof.
  intros (r & t & cols & cols' & reps & h2 & _ & Hlearn & Hinfer)%doExperiment_Returned
    HnTrav.
  apply (learning_learnt objectDescriptions numColumns (λ _, False))
    in Hlearn as [Hcols _];
    [| split; [simpl; by rewrite length_replicate | done]].
  apply inference_Returned in Hinfer as [_ Hcount].
  rewrite Hcount by done. simpl in *. by rewrite Hcols.
Qed.

End WholeTheorems.


Lemma doExperiment_result_count_witness :
  ∃ results h',
    Demo.experiment = Returned results h'
    ∧ length results
      = sum_list_with (λ o, (1 * testTouches 1 (length o.2))%nat)
          [Cases.object1].
Proof.
  eexists _, _. split; [vm_compute; reflexivity |].
  eapply (doExperiment_result_count (L2 := SDR) Echo.placement 1 []
            [Cases.object1] (1 # 2) 0%Q 0
            (Echo.heap (seqZ 0 400) (replicate 12 0%Q))).
  - vm_compute. reflexivity.
  - lia.
Defined.

(** ** How many calls an experiment makes *)

Section Calls.

Context {L2 : Type} `{ColumnPooler L2}.
Variable placement : SensorPlacement.

Local Open Scope nat_scope.












End Calls.


(** ** More on the success rate *)

Section Rates.

Local Open Scope nat_scope.

Lemma numPassed_app (cT iT : nat) (a b : list (nat * nat)) :
  numPassed cT iT (a ++ b) = numPassed cT iT a + numPassed cT iT b.
Proof. unfold numPassed. by rewrite filter_app, length_app. Qed.

Lemma numPassed_cons (cT iT : nat) (t : nat * nat) (ts : list (nat * nat)) :
  numPassed cT iT (t :: ts)
  = (if decide (passes cT iT t) then 1 else 0) + numPassed cT iT ts.
Proof.
  unfold numPassed, passes. rewrite filter_cons.
  by destruct (decide (cT ≤ t.1 ∧ t.2 ≤ iT)).
Qed.

Lemma numPassed_mono (cT cT' iT iT' : nat) (trials : list (nat * nat)) :
  cT ≤ cT' → iT' ≤ iT → numPassed cT' iT' trials ≤ numPassed cT iT trials.
Proof.
  intros Hc Hi. induction trials as [|t ts IH]; [done |].
  rewrite !numPassed_cons. unfold passes.
  repeat case_decide; lia.
Qed.

Lemma numPassed_all (cT iT : nat) (trials : list (nat * nat)) :
  numPassed cT iT trials = length trials ↔ Forall (passes cT iT) trials.
Proof.
  induction trials as [|t ts IH]; [by split |].
  rewrite numPassed_cons, Forall_cons. simpl.
  pose proof (numPassed_le cT iT ts).
  case_decide; split.
  - intros Hn. split; [done |]. apply IH. lia.
  - intros [_ Hts%IH]. lia.
  - lia.
  - by intros [? _].
Qed.

Lemma numPassed_none (cT iT : nat) (trials : list (nat * nat)) :
  numPassed cT iT trials = 0 ↔ Forall (λ t, ¬ passes cT iT t) trials.
Proof.
  induction trials as [|t ts IH]; [by split |].
  rewrite numPassed_cons, Forall_cons.
  case_decide; split.
  - lia.
  - by intros [? _].
  - intros Hn. split; [done |]. apply IH. lia.
  - intros [_ Hts%IH]. lia.
Qed.

Lemma numPassed_Permutation (cT iT : nat) (a b : list (nat * nat)) :
  a ≡ₚ b → numPassed cT iT a = numPassed cT iT b.
Proof.
  induction 1 as [|x l l' _ IH|x y l|l l' l'' _ IH1 _ IH2].
  - done.
  - by rewrite !numPassed_cons, IH.
  - rewrite !numPassed_cons. lia.
  - congruence.
Qed.

End Rates.

Lemma successRate_value (cT iT : nat) (t : nat * nat) (ts : list (nat * nat)) :
  successRate cT iT (t :: ts)
  = inr (inject_Z (Z.of_nat (numPassed cT iT (t :: ts)))
         / inject_Z (Z.of_nat (length (t :: ts))))%Q.
Proof. reflexivity. Qed.

Lemma count_nonzero (n : nat) : (0 < n)%nat → ¬ (inject_Z (Z.of_nat n) == 0)%Q.
Proof. intros Hn. unfold Qeq. simpl. lia. Qed.

(** X15: the success rate of two batches of trials taken together is
    the mean of their rates weighted by their sizes. *)
Theorem successRate_of_extended_results (correctThreshold incorrectThreshold : nat)
    (a b : list (nat * nat)) :
  a ≠ [] → b ≠ [] →
  ∃ qa qb qab : Q,
    successRate correctThreshold incorrectThreshold a = inr qa
    ∧ successRate correctThreshold incorrectThreshold b = inr qb
    ∧ successRate correctThreshold incorrectThreshold (a ++ b) = inr qab
    ∧ (qab * inject_Z (Z.of_nat (length a + length b))
       == qa * inject_Z (Z.of_nat (length a))
          + qb * inject_Z (Z.of_nat (length b)))%Q.
Proof.
  intros Ha Hb.
  destruct a as [|ta a]; [done |]. destruct b as [|tb b]; [done |].
  eexists _, _, _. split; [apply successRate_value |].
  split; [apply successRate_value |].
  split; [apply (successRate_value _ _ ta (a ++ tb :: b)) |].
  change (ta :: a ++ tb :: b) with ((ta :: a) ++ (tb :: b)).
  rewrite numPassed_app, length_app.
  set (la := ta :: a). set (lb := tb :: b).
  assert (Hla : (0 < length la)%nat) by (unfold la; simpl; lia).
  assert (Hlb : (0 < length lb)%nat) by (unfold lb; simpl; lia).
  assert (Hlab : (0 < length la + length lb)%nat) by lia.
  pose proof (count_nonzero _ Hla) as Hnza.
  pose proof (count_nonzero _ Hlb) as Hnzb.
  pose proof (count_nonzero _ Hlab) as Hnzab.
  set (pa := numPassed correctThreshold incorrectThreshold la).
  set (pb := numPassed correctThreshold incorrectThreshold lb).
  transitivity (inject_Z (Z.of_nat (pa + pb))); [by field |].
  rewrite Nat2Z.inj_add, inject_Z_plus.
  apply Qplus_comp; by field.
Qed.

Lemma successRate_of_extended_results_witness :
  ∃ qa qb qab : Q,
    successRate 3 1 [Cases.hit] = inr qa
    ∧ successRate 3 1 [Cases.miss; Cases.hit] = inr qb
    ∧ successRate 3 1 ([Cases.hit] ++ [Cases.miss; Cases.hit]) = inr qab
    ∧ (qab * inject_Z (Z.of_nat (length [Cases.hit]
                                 + length [Cases.miss; Cases.hit]))
       == qa * inject_Z (Z.of_nat (length [Cases.hit]))
          + qb * inject_Z (Z.of_nat (length [Cases.miss; Cases.hit])))%Q.
Proof.
  apply (successRate_of_extended_results 3 1 [Cases.hit]
           [Cases.miss; Cases.hit]); discriminate.
Defined.

(** X16: the success rate does not depend on the order of the trials. *)
Theorem successRate_ignores_order (correctThreshold incorrectThreshold : nat)
    (a b : list (nat * nat)) :
  a ≡ₚ b →
  successRate correctThreshold incorrectThreshold a
  = successRate correctThreshold incorrectThreshold b.
Proof.
  intros Hab.
  pose proof (numPassed_Permutation correctThreshold incorrectThreshold a b Hab)
    as Hn.
  pose proof (Permutation_length Hab) as Hl.
  destruct a as [|ta a], b as [|tb b]; try done.
  rewrite !successRate_value. by rewrite Hn, Hl.
Qed.

Lemma successRate_ignores_order_witness :
  successRate 3 1 [Cases.hit; Cases.miss]
  = successRate 3 1 [Cases.miss; Cases.hit].
Proof.
  apply (successRate_ignores_order 3 1 [Cases.hit; Cases.miss]
           [Cases.miss; Cases.hit]).
  apply perm_swap.
Defined.

(** X17: raising the threshold on correct cells or lowering the one on
    incorrect cells cannot raise the success rate. *)
Theorem successRate_falls_with_stricter_thresholds
    (correctThreshold correctThreshold' incorrectThreshold
       incorrectThreshold' : nat)
    (t : nat * nat) (ts : list (nat * nat)) :
  (correctThreshold ≤ correctThreshold')%nat →
  (incorrectThreshold' ≤ incorrectThreshold)%nat →
  ∃ q q' : Q,
    successRate correctThreshold incorrectThreshold (t :: ts) = inr q
    ∧ successRate correctThreshold' incorrectThreshold' (t :: ts) = inr q'
    ∧ (q' <= q)%Q.
Proof.
  intros Hc Hi. eexists _, _.
  split; [apply successRate_value |]. split; [apply successRate_value |].
  pose proof (numPassed_mono _ _ _ _ (t :: ts) Hc Hi) as Hle.
  unfold Qdiv. apply Qmult_le_compat_r.
  - rewrite <- Zle_Qle. lia.
  - apply Qinv_le_0_compat. unfold Qle. simpl. lia.
Qed.

Lemma successRate_falls_with_stricter_thresholds_witness :
  ∃ q q' : Q,
    successRate 3 5 [Cases.hit; Cases.miss] = inr q
    ∧ successRate 5 3 [Cases.hit; Cases.miss] = inr q'
    ∧ (q' <= q)%Q.
Proof.
  apply (successRate_falls_with_stricter_thresholds 3 5 5 3 Cases.hit
           [Cases.miss]); lia.
Defined.

(** X18: on at least one trial the success rate is 1 exactly when every
    trial passes and 0 exactly when none does. *)
Theorem successRate_extremes (correctThreshold incorrectThreshold : nat)
    (t : nat * nat) (ts : list (nat * nat)) :
  ∃ q : Q,
    successRate correctThreshold incorrectThreshold (t :: ts) = inr q
    ∧ ((q == 1)%Q ↔
       Forall (passes correctThreshold incorrectThreshold) (t :: ts))
    ∧ ((q == 0)%Q ↔
       Forall (λ r, ¬ passes correctThreshold incorrectThreshold r) (t :: ts)).
Proof.
  eexists. split; [apply successRate_value |].
  set (l := t :: ts).
  assert (Hl : (0 < length l)%nat) by (unfold l; simpl; lia).
  pose proof (count_nonzero _ Hl) as Hnz.
  rewrite <- numPassed_all, <- numPassed_none.
  set (p := numPassed correctThreshold incorrectThreshold l).
  split; split.
  - intros Hq.
    assert (Heq : (inject_Z (Z.of_nat p) == inject_Z (Z.of_nat (length l)))%Q).
    { rewrite <- (Qmult_1_l (inject_Z (Z.of_nat (length l)))), <- Hq. by field. }
    unfold Qeq in Heq. cbn [Qnum Qden inject_Z] in Heq. lia.
  - intros ->. by field.
  - intros Hq.
    assert (Heq : (inject_Z (Z.of_nat p) == inject_Z 0)%Q).
    { transitivity (inject_Z (Z.of_nat p) / inject_Z (Z.of_nat (length l))
                    * inject_Z (Z.of_nat (length l)))%Q; [by field |].
      rewrite Hq. ring. }
    unfold Qeq in Heq. cbn [Qnum Qden inject_Z] in Heq. lia.
  - intros ->. simpl. by field.
Qed.

(** ** [createRandomObjectDescriptions] *)

Section Descriptions.

Local Open Scope nat_scope.

Lemma Uses_ret {A} (a : A) : Uses 0 (ret a).
Proof. intros t. unfold ret. split; [lia | done]. Qed.

Lemma Uses_bind {A B} (m : Random.Gen A) (k : A → Random.Gen B) (c1 c2 : nat) :
  Uses c1 m → (∀ a, Uses c2 (k a)) → Uses (c1 + c2) (bind m k).
Proof.
  intros Hm Hk t. unfold bind. specialize (Hm t).
  destruct (m t) as [a t1| |]; [| done | lia].
  destruct Hm as [Hlen ->]. specialize (Hk a (drop c1 t)).
  destruct (k a (drop c1 t)) as [b t2| |]; [| done |].
  - destruct Hk as [Hlen2 ->]. rewrite length_drop in Hlen2.
    split; [lia |]. rewrite drop_drop. done.
  - rewrite length_drop in Hk. lia.
Qed.

Lemma Uses_forEnum {A B} (body : nat → A → Random.Gen B) (c : nat)
    (l : list A) :
  (∀ i x, Uses c (body i x)) → ∀ i, Uses (c * length l) (forEnum body i l).
Proof.
  intros Hbody. induction l as [|x l IH]; intros i; cbn [forEnum length].
  - rewrite Nat.mul_0_r. apply Uses_ret.
  - replace (c * S (length l)) with (c + (c * length l + 0)) by lia.
    apply Uses_bind; [apply Hbody |]. intros y.
    apply Uses_bind; [apply IH |]. intros ys. apply Uses_ret.
Qed.

Lemma Uses_choice {A} (seq : list A) : seq ≠ [] → Uses 1 (Random_choice seq).
Proof.
  intros Hne t. unfold Random_choice. destruct t as [|r t]; [simpl; lia |].
  assert (Hj : Z.to_nat (r `mod` Z.of_nat (length seq)) < length seq).
  { assert (0 < length seq) by (destruct seq; simpl; [done | lia]).
    pose proof (Z.mod_pos_bound r (Z.of_nat (length seq))). lia. }
  destruct (lookup_lt_is_Some_2 _ _ Hj) as [x ->]. simpl. split; [lia | done].
Qed.

Lemma choice_member {A} (seq : list A) t x t' :
  Random_choice seq t = Returned x t' → x ∈ seq.
Proof.
  unfold Random_choice. destruct t as [|r t]; [done |].
  destruct (seq !! _) as [y|] eqn:Hy; [| done].
  intros [= <- _]. by eapply list_elem_of_lookup_2.
Qed.

Lemma forEnum_Forall2 {St A B} (R : A → B → Prop) (body : nat → A → Run St B)
    (l : list A) :
  (∀ i x s y s', body i x s = Returned y s' → R x y) →
  ∀ i s ys s', forEnum body i l s = Returned ys s' → Forall2 R l ys.
Proof.
  intros Hbody. induction l as [|x l IH]; intros i s ys s'; simpl.
  - intros [= <- _]. constructor.
  - intros (y & s1 & Hy & (ys' & s2 & Hys & [= <- _])%bind_Returned)%bind_Returned.
    constructor; [by eapply Hbody | by eapply IH].
Qed.

Lemma dict_list_to_map {A} (items : list (string * A)) :
  NoDup items.*1 → dict items = list_to_map items.
Proof.
  unfold dict. induction items as [|[k v] items IH] using rev_ind; [done |].
  rewrite fmap_app, NoDup_app. intros (Hnd & Hk & _).
  rewrite foldl_snoc, IH by done. simpl.
  symmetry. apply list_to_map_snoc. intros Hin. apply (Hk k Hin). by left.
Qed.

Lemma objectItems_shape (nObj n : Z) (pool : list string) t items t' :
  objectItems nObj n pool t = Returned items t' →
  Forall2 (wellShaped n pool) (seqZ 1 nObj) items.
Proof.
  unfold objectItems. apply forEnum_Forall2.
  intros _ i s y s' (features & s1 & Hf & [= <- _])%bind_Returned.
  pose proof Hf as Hlen. apply forEnum_Returned in Hlen as [Hlen _].
  rewrite length_seqZ in Hlen.
  apply (forEnum_Forall2 (λ _ f, f ∈ pool)) in Hf.
  - split; [done |]. simpl. split.
    + apply fst_zip. rewrite length_seq. lia.
    + rewrite snd_zip by (rewrite length_seq; lia).
      clear -Hf. induction Hf; constructor; auto.
  - intros _ _ s2 f s3. apply choice_member.
Qed.

Lemma objectItems_names (n : Z) (pool : list string)
    (ids : list Z) (items : list (string * list FeatureLocation)) :
  Forall2 (wellShaped n pool) ids items →
  items.*1 = (λ i, "Object " +:+ pretty i) <$> ids.
Proof.
  induction 1 as [|i item ids items [Hname _] _ IH]; [done |].
  by rewrite !fmap_cons, Hname, IH.
Qed.

Lemma object_names_NoDup (ids : list Z) :
  NoDup ids → NoDup ((λ i, "Object " +:+ pretty i) <$> ids).
Proof.
  apply NoDup_fmap_2. intros i j Hij.
  apply (inj (String.app "Object ")) in Hij. by apply (inj pretty) in Hij.
Qed.

End Descriptions.

(** X19: [createRandomObjectDescriptions] returns [numObjects] objects,
    named "Object 1" to "Object numObjects", each with the locations
    [0 .. numLocationsPerObject - 1] in order and at each a feature of
    the pool. *)
Theorem createRandomObjectDescriptions_shape (numObjects numLocationsPerObject : Z)
    (featurePool : list string) (t t' : Random.Tape)
    (d : gmap string (list FeatureLocation)) :
  createRandomObjectDescriptions numObjects numLocationsPerObject featurePool t
  = Returned d t' →
  size d = Z.to_nat numObjects
  ∧ ∀ i, 1 ≤ i ≤ numObjects →
      ∃ featureLocations,
        d !! ("Object " +:+ pretty i) = Some featureLocations
        ∧ featureLocations.*1 = seq 0 (Z.to_nat numLocationsPerObject)
        ∧ Forall (λ f, f ∈ featurePool) featureLocations.*2.
Proof.
  unfold createRandomObjectDescriptions.
  intros (items & t1 & Hitems & [= <- _])%bind_Returned.
  apply objectItems_shape in Hitems.
  pose proof (objectItems_names _ _ _ _ Hitems) as Hnames.
  assert (Hnd : NoDup items.*1).
  { rewrite Hnames. apply object_names_NoDup, NoDup_seqZ. }
  rewrite dict_list_to_map by done. split.
  - rewrite map_size_list_to_map by done.
    apply Forall2_length in Hitems. rewrite <- Hitems. apply length_seqZ.
  - intros i Hi.
    assert (Hk : seqZ 1 numObjects !! Z.to_nat (i - 1) = Some i).
    { apply lookup_seqZ. lia. }
    destruct (Forall2_lookup_l _ _ _ _ _ Hitems Hk) as ([name fls] & Hitem & Hname & Hloc & Hfeat).
    simpl in *. subst name. exists fls. split; [| done].
    apply elem_of_list_to_map; [done |]. by eapply list_elem_of_lookup_2.
Qed.

Lemma createRandomObjectDescriptions_shape_witness :
  ∃ d t',
    createRandomObjectDescriptions 2 2 defaultFeaturePool [0; 1; 2; 3; 4]
    = Returned d t'
    ∧ size d = Z.to_nat 2
    ∧ ∀ i, 1 ≤ i ≤ 2 →
        ∃ featureLocations,
          d !! ("Object " +:+ pretty i) = Some featureLocations
          ∧ featureLocations.*1 = seq 0 (Z.to_nat 2)
          ∧ Forall (λ f, f ∈ defaultFeaturePool) featureLocations.*2.
Proof.
  eexists _, _. split; [vm_compute; reflexivity |].
  eapply (createRandomObjectDescriptions_shape 2 2 defaultFeaturePool
            [0; 1; 2; 3; 4]).
  vm_compute. reflexivity.
Defined.

(** X20: with a pool that is not empty,
    [createRandomObjectDescriptions] uses exactly
    [numObjects * numLocationsPerObject] draws: it never raises, and it
    waits for a draw exactly when fewer are left. *)
Theorem createRandomObjectDescriptions_draws (numObjects numLocationsPerObject : Z)
    (featurePool : list string) (t : Random.Tape) :
  featurePool ≠ [] →
  match createRandomObjectDescriptions numObjects numLocationsPerObject
          featurePool t with
  | Returned _ t' =>
      (Z.to_nat numLocationsPerObject * Z.to_nat numObjects ≤ length t)%nat
      ∧ t' = drop (Z.to_nat numLocationsPerObject * Z.to_nat numObjects) t
  | Raised _ => False
  | Starved =>
      (length t < Z.to_nat numLocationsPerObject * Z.to_nat numObjects)%nat
  end.
Proof.
  intros Hpool.
  assert (HU : Uses (Z.to_nat numLocationsPerObject * Z.to_nat numObjects + 0)
                 (createRandomObjectDescriptions numObjects
                    numLocationsPerObject featurePool)).
  { unfold createRandomObjectDescriptions.
    apply Uses_bind; [| intros; apply Uses_ret].
    unfold objectItems. rewrite <- (length_seqZ 1 numObjects).
    apply Uses_forEnum. intros _ i.
    replace (Z.to_nat numLocationsPerObject)
      with (1 * length (seqZ 0 numLocationsPerObject) + 0)%nat
      by (rewrite length_seqZ; lia).
    apply Uses_bind; [| intros; apply Uses_ret].
    apply Uses_forEnum. intros _ _. by apply Uses_choice. }
  rewrite Nat.add_0_r in HU. apply HU.
Qed.

Lemma createRandomObjectDescriptions_draws_witness :
  match createRandomObjectDescriptions 2 2 defaultFeaturePool
          [0; 1; 2; 3; 4] with
  | Returned _ t' =>
      (Z.to_nat 2 * Z.to_nat 2 ≤ length [0; 1; 2; 3; 4])%nat
      ∧ t' = drop (Z.to_nat 2 * Z.to_nat 2) [0; 1; 2; 3; 4]
  | Raised _ => False
  | Starved => (length [0; 1; 2; 3; 4] < Z.to_nat 2 * Z.to_nat 2)%nat
  end.
Proof.
  apply (createRandomObjectDescriptions_draws 2 2 defaultFeaturePool
           [0; 1; 2; 3; 4]).
  discriminate.
Defined.

(** X21: with an empty pool, at least one object and at least one
    location, [createRandomObjectDescriptions] raises [IndexError] at its
    first draw. *)
Theorem createRandomObjectDescriptions_empty_pool
    (numObjects numLocationsPerObject : Z) (t : Random.Tape) :
  0 < numObjects → 0 < numLocationsPerObject → t ≠ [] →
  createRandomObjectDescriptions numObjects numLocationsPerObject [] t
  = Raised IndexError.
Proof.
  intros HnObj Hn Ht.
  unfold createRandomObjectDescriptions, objectItems, bind.
  destruct (seqZ 1 numObjects) as [|i ids] eqn:Hseq.
  { apply (f_equal length) in Hseq. rewrite length_seqZ in Hseq.
    simpl in Hseq. lia. }
  destruct (seqZ 0 numLocationsPerObject) as [|j js] eqn:Hseq2.
  { apply (f_equal length) in Hseq2. rewrite length_seqZ in Hseq2.
    simpl in Hseq2. lia. }
  destruct t as [|r t]; [done |].
  cbn [forEnum]. unfold bind. unfold Random_choice at 1. done.
Qed.

Lemma createRandomObjectDescriptions_empty_pool_witness :
  createRandomObjectDescriptions 2 2 [] [0] = Raised IndexError.
Proof.
  apply (createRandomObjectDescriptions_empty_pool 2 2 [0]);
    [lia | lia | discriminate].
Defined.

